(** * Iridium: connection lifecycle, model cache and document pipelines

    A shallow embedding of [Core] (connection target, [connect], [close]),
    [ModelCache] and [ModelHandlers], together with the properties the
    specification states about them.

    Conventions.
    - A promise is modelled by its settlement, an [outcome]; a throw inside a
      [then] callback is a rejection of the promise the callback feeds.  A
      promise that comes from outside (the driver, an overridden hook of the
      manager) may also stay pending.
    - Several chains in flight are interleaved by a step relation; where a
      definition runs them to the end, it runs the callbacks in the order
      they were queued, and says so.
    - JavaScript truthiness is written out: an absent field, the empty string
      and the number zero are falsy.
    - Effects on the outside world (the driver, the hooks) are recorded in a
      trace of events, in the order in which the code performs them. *)

From Stdlib Require Import DecimalString.
From stdpp Require Import base option decidable numbers list strings gmap relations.

Local Open Scope string_scope.
Local Open Scope list_scope.
Local Open Scope nat_scope.

#[local] Set Warnings "-clear-no-such-hyp".

(** ** Settlements *)

(** The reason a promise is rejected with: the message of a thrown [Error], or
    whatever the driver, a hook or the validator reports. *)
Definition Err := string.

Inductive outcome (A : Type) : Type :=
  | Resolved (a : A)
  | Rejected (e : Err).
Arguments Resolved {A} a.
Arguments Rejected {A} e.

Global Instance outcome_eq_dec {A} `{EqDecision A} : EqDecision (outcome A).
Proof. solve_decision. Defined.

Definition is_resolved {A} (o : outcome A) : bool :=
  match o with Resolved _ => true | Rejected _ => false end.

(** A promise that code outside the program returned may also stay pending
    for ever: [None].  [resolves] says that it settles, and with a value. *)
Definition resolves {A} (o : option (outcome A)) : bool :=
  match o with Some (Resolved _) => true | _ => false end.

(** A call that returns, or throws. *)
Inductive completion (A : Type) : Type :=
  | Returned (a : A)
  | Thrown (e : Err).
Arguments Returned {A} a.
Arguments Thrown {A} e.

(** ** Cooperative tasks

    Several asynchronous chains in flight over one shared world [W].  Each
    chain is at some point [P] of its sequence of callbacks; [step w pc] runs
    the callback that is queued for it, if there is one. *)

Section Tasks.
Context {W P : Type} (step : W → P → option (W * P)).

(** Some chain runs its next callback.  Nothing orders the chains. *)
Inductive task_step : W * list P → W * list P → Prop :=
| task_run w ts i pc w' pc' :
  ts !! i = Some pc →
  step w pc = Some (w', pc') →
  task_step (w, ts) (w', <[i := pc']> ts).

(** One round: every chain runs its next callback, in the order the chains
were started; a chain with nothing to run is skipped.  This is the order
of a first-in first-out callback queue. *)
Fixpoint sweep (w : W) (ts : list P) : W * list P :=
match ts with
| [] => (w, [])
| pc :: ts' =>
  match step w pc with
  | Some (w', pc') =>
      let '(w'', ts'') := sweep w' ts' in (w'', pc' :: ts'')
  | None =>
      let '(w'', ts'') := sweep w ts' in (w'', pc :: ts'')
  end
end.

Fixpoint sweeps (n : nat) (s : W * list P) : W * list P :=
match n with
| 0 => s
| S n' => sweeps n' (sweep s.1 s.2)
end.
End Tasks.

(** ** JavaScript helpers *)

Module JS.

(** [if (s)] for an optional string. *)
Definition truthy_str (s : option string) : bool :=
match s with
| Some s => negb (String.eqb s "")
| None => false
end.

(** [if (n)] for an optional number. *)
Definition truthy_num (n : option N) : bool :=
match n with
| Some n => negb (N.eqb n 0)
| None => false
end.

(** The string a template literal substitutes for an optional string. *)
Definition str (s : option string) : string := default "undefined" s.

(** The string a template literal substitutes for a number: its decimal
numeral.  Ports are non-negative integers. *)
Definition num_to_string (n : N) : string := NilZero.string_of_uint (N.to_uint n).

(** [Array.prototype.join]. *)
Fixpoint join (sep : string) (l : list string) : string :=
match l with
| [] => ""
| [x] => x
| x :: l' => x +:+ sep +:+ join sep l'
end.

(** lodash's [_.uniq]: the first occurrence of every element, in order. *)
Fixpoint uniq_from (seen : list string) (l : list string) : list string :=
match l with
| [] => []
| x :: l' =>
  if bool_decide (x ∈ seen) then uniq_from seen l'
  else x :: uniq_from (x :: seen) l'
end.

Definition uniq (l : list string) : list string := uniq_from [] l.

End JS.

(** ** Configuration *)

(** An entry of [Configuration.hosts]: [{ address: string; port?: number }]. *)
Record Host := mkHost {
  address : string;
  host_port : option N
}.

(** [Configuration]: every field is optional.  [host] is a bare address; the
    only port that goes with it is the shared [port]. *)
Record Configuration := mkConfiguration {
  username : option string;
  password : option string;
  host : option string;
  port : option N;
  hosts : option (list Host);
  database : option string
}.

(** ** The Core *)

(** A connection handle of the driver ([MongoDB.Db]) and the identity of a
    promise returned by the driver's [connect]. *)
Definition Db := nat.
Definition PromiseId := nat.

(** The identity of a manager object: what [this] denotes. *)
Definition CoreRef := nat.

Record Core := mkCore {
  this : CoreRef;
  _url : option string;
  _config : option Configuration;
  _connection : option Db;
  _connectPromise : option PromiseId
}.

(** The first argument of the constructor: a string, a configuration object,
    or nothing usable ([undefined], [null]). *)
Inductive CtorArg :=
  | ArgString (uri : string)
  | ArgConfig (config : Configuration)
  | ArgNone.

Definition new_Core (self : CoreRef) (uri : CtorArg) (config : option Configuration)
  : outcome Core :=
  match uri with
  | ArgString s =>
      Resolved {| this := self; _url := Some s; _config := config;
                  _connection := None; _connectPromise := None |}
  | ArgConfig c =>
      Resolved {| this := self; _url := None; _config := Some c;
                  _connection := None; _connectPromise := None |}
  | ArgNone =>
      Rejected "Expected either a URI or config object to be supplied when initializing Iridium"
  end.

(** The body of the callback given to [_.each(this._config.hosts, ...)]: one
    [push] per additional host. *)
Definition push_host (shared_port : option N) (acc : list string) (h : Host) : list string :=
  if JS.truthy_num (host_port h) then
    acc ++ [address h +:+ ":" +:+ JS.num_to_string (default 0%N (host_port h))]
  else if JS.truthy_num shared_port then
    acc ++ [address h +:+ ":" +:+ JS.num_to_string (default 0%N shared_port)]
  else
    acc ++ [address h].

(** [get url()], statement by statement. *)
Definition url (c : Core) : outcome string :=
  if JS.truthy_str (_url c) then Resolved (JS.str (_url c))
  else match _config c with
  | None => Rejected "No URL or configuration provided"
  | Some cfg =>
      let url := "mongodb://" in
      let url :=
        if JS.truthy_str (username cfg) then
          let url := url +:+ JS.str (username cfg) in
          let url :=
            if JS.truthy_str (password cfg)
            then url +:+ ":" +:+ JS.str (password cfg) else url in
          url +:+ "@"
        else url in
      let hs : list string := [] in
      let hs :=
        if JS.truthy_str (host cfg) then
          if JS.truthy_num (port cfg)
          then hs ++ [JS.str (host cfg) +:+ ":" +:+ JS.num_to_string (default 0%N (port cfg))]
          else hs ++ [JS.str (host cfg)]
        else hs in
      let hs :=
        match hosts cfg with
        | Some l => fold_left (push_host (port cfg)) l hs
        | None => hs
        end in
      let url :=
        if negb (Nat.eqb (length hs) 0)
        then url +:+ JS.join "," (JS.uniq hs)
        else url +:+ "localhost" in
      let url :=
        if JS.truthy_str (database cfg)
        then url +:+ "/" +:+ JS.str (database cfg) else url in
      Resolved url
  end.

(** *** The target, as the specification words it

    [scheme://[user[:password]@]hosts[/database]].  A field is present when
    it holds a non-empty string or a non-zero number. *)

Definition present_str (s : option string) : option string :=
  match s with
  | Some s => if String.eqb s "" then None else Some s
  | None => None
  end.

Definition present_num (n : option N) : option N :=
  match n with
  | Some n => if N.eqb n 0 then None else Some n
  | None => None
  end.

(** Credentials only if a user name is present, the password only if it is
    present too. *)
Definition credentials (cfg : Configuration) : string :=
  match present_str (username cfg) with
  | None => ""
  | Some u =>
      match present_str (password cfg) with
      | None => u +:+ "@"
      | Some pw => u +:+ ":" +:+ pw +:+ "@"
      end
  end.

(** An address with its own port, else the shared port, else no port. *)
Definition host_entry (addr : string) (own shared : option N) : string :=
  match present_num own with
  | Some p => addr +:+ ":" +:+ JS.num_to_string p
  | None =>
      match present_num shared with
      | Some p => addr +:+ ":" +:+ JS.num_to_string p
      | None => addr
      end
  end.

(** The single host, which has no port of its own, followed by the
    additional hosts. *)
Definition host_entries (cfg : Configuration) : list string :=
  match present_str (host cfg) with
  | Some a => [host_entry a None (port cfg)]
  | None => []
  end ++
  map (λ h, host_entry (address h) (host_port h) (port cfg)) (default [] (hosts cfg)).

Definition host_list (cfg : Configuration) : string :=
  match host_entries cfg with
  | [] => "localhost"
  | es => JS.join "," (JS.uniq es)
  end.

Definition database_segment (cfg : Configuration) : string :=
  match present_str (database cfg) with
  | Some d => "/" +:+ d
  | None => ""
  end.

Definition target (cfg : Configuration) : string :=
  "mongodb://" +:+ credentials cfg +:+ host_list cfg +:+ database_segment cfg.

(** A configuration that holds hosts and nothing else. *)
Definition config_of_hosts (h : option string) (p : option N) (hs : option (list Host))
  : Configuration :=
  {| username := None; password := None; host := h; port := p; hosts := hs;
     database := None |}.

(** ** The connection lifecycle *)

(** What the manager does to the outside world, and what the outside world
    can see of it: calls of the driver, calls of the two overridable hooks,
    and every assignment to [_connection] (which the [connection] accessor
    exposes). *)
Inductive Event :=
  | EvConnect (target : string) (p : PromiseId)
  | EvOnConnecting (db : Db)
  | EvOnConnected
  | EvConnection (v : option Db)
  | EvRelease (db : Db).

Global Instance Event_eq_dec : EqDecision Event.
Proof. solve_decision. Defined.

(** The overridable hooks.  A hook may keep state of its own: its result may
    depend on everything that happened before it was called.  What it
    returns is a promise: one that resolves, one that is rejected (a hook
    that throws counts as such), or one that stays pending, [None]. *)
Record Hooks := mkHooks {
  onConnecting : list Event → Db → option (outcome Db);
  onConnected : list Event → option (outcome unit)
}.

(** The hooks of the base class: [Bluebird.resolve(connection)] and
    [Bluebird.resolve()]. *)
Definition default_hooks : Hooks :=
  {| onConnecting := λ _ db, Some (Resolved db);
     onConnected := λ _, Some (Resolved ()) |}.

(** The driver: what a call of [db.close()] does.  It throws, or it returns
    a promise, which settles as given.  Its [connect] settles from outside,
    see [settle]. *)
Record Driver := mkDriver {
  close_result : Db → completion (outcome unit)
}.

(** The manager and its surroundings: the promises the driver's [connect]
    returned so far ([None] while pending) and the trace. *)
Record World := mkWorld {
  core : Core;
  promises : list (option (outcome Db));
  trace : list Event
}.

Definition emit (e : Event) (w : World) : World :=
  {| core := core w; promises := promises w; trace := trace w ++ [e] |}.

(** [this._connection = v]. *)
Definition set_connection (v : option Db) (w : World) : World :=
  emit (EvConnection v)
    {| core := {| this := this (core w); _url := _url (core w);
                  _config := _config (core w);
                  _connection := v;
                  _connectPromise := _connectPromise (core w) |};
       promises := promises w; trace := trace w |}.

(** [this._connectPromise = v]. *)
Definition set_connectPromise (v : option PromiseId) (w : World) : World :=
  {| core := {| this := this (core w); _url := _url (core w);
                _config := _config (core w);
                _connection := _connection (core w);
                _connectPromise := v |};
     promises := promises w; trace := trace w |}.

(** [this.mongoConnectAsyc(target, options)]: a new pending promise. *)
Definition mongoConnectAsyc (target : string) (w : World) : World * PromiseId :=
  let p := length (promises w) in
  (emit (EvConnect target p)
     {| core := core w; promises := promises w ++ [None]; trace := trace w |}, p).

(** [db.close()]: the call is made; it returns a promise or throws. *)
Definition db_close (drv : Driver) (db : Db) (w : World)
  : World * completion (outcome unit) :=
  (emit (EvRelease db) w, close_result drv db).

(** The driver settles the pending promise [p]. *)
Definition settle (p : PromiseId) (o : outcome Db) (w : World) : option World :=
  match promises w !! p with
  | Some None =>
      Some {| core := core w; promises := <[p := Some o]> (promises w); trace := trace w |}
  | _ => None
  end.

(** Where one call of [connect] stands in its chain of [then] callbacks. *)
Inductive Pc :=
  | PcStart                          (* the first callback is queued *)
  | PcAwait (p : PromiseId)          (* it returned the driver's promise [p] *)
  | PcDb (db : Db)                   (* [db => this.onConnecting(db)] is queued *)
  | PcHooked (db : Db)               (* the third callback is queued *)
  | PcReady                          (* [() => this] is queued *)
  | PcFailed (e : Err)               (* the rejection handler is queued *)
  | PcStalled                        (* a hook returned a promise that stays pending *)
  | PcDone (o : outcome CoreRef).    (* the promise [connect] returned has settled *)

Global Instance Pc_eq_dec : EqDecision Pc.
Proof. solve_decision. Defined.

(** One callback of the chain of [connect].  [None]: nothing to run, the call
    is waiting for the driver or for a hook, or has settled.  A hook is
    called when its callback runs; the promise it returns settles, if it
    does, when the call takes its next step.  In the rejection handler a
    [close()] that throws ends the handler there: the two assignments are
    not reached, and what was thrown is what the call is rejected with.
    [nodeify(callback)] passes the settlement on to the callback, if one was
    given, and changes nothing else. *)
Definition connect_step (hk : Hooks) (drv : Driver) (w : World) (pc : Pc)
  : option (World * Pc) :=
  match pc with
  | PcStart =>
      match _connection (core w) with
      | Some db => Some (w, PcDb db)
      | None =>
          match _connectPromise (core w) with
          | Some p => Some (w, PcAwait p)
          | None =>
              match url (core w) with
              | Rejected e => Some (w, PcFailed e)
              | Resolved target =>
                  let '(w, p) := mongoConnectAsyc target w in
                  Some (set_connectPromise (Some p) w, PcAwait p)
              end
          end
      end
  | PcAwait p =>
      match promises w !! p with
      | Some (Some (Resolved db)) => Some (w, PcDb db)
      | Some (Some (Rejected e)) => Some (w, PcFailed e)
      | _ => None
      end
  | PcDb db =>
      let r := onConnecting hk (trace w) db in
      let w := emit (EvOnConnecting db) w in
      match r with
      | Some (Resolved db') => Some (w, PcHooked db')
      | Some (Rejected e) => Some (w, PcFailed e)
      | None => Some (w, PcStalled)
      end
  | PcHooked db =>
      let w := set_connection (Some db) w in
      let w := set_connectPromise None w in
      let r := onConnected hk (trace w) in
      let w := emit EvOnConnected w in
      match r with
      | Some (Resolved _) => Some (w, PcReady)
      | Some (Rejected e) => Some (w, PcFailed e)
      | None => Some (w, PcStalled)
      end
  | PcReady => Some (w, PcDone (Resolved (this (core w))))
  | PcFailed e =>
      match _connection (core w) with
      | Some conn =>
          let '(w, c) := db_close drv conn w in
          match c with
          | Thrown e' => Some (w, PcDone (Rejected e'))
          | Returned _ =>
              let w := set_connection None w in
              let w := set_connectPromise None w in
              Some (w, PcDone (Rejected e))
          end
      | None =>
          let w := set_connection None w in
          let w := set_connectPromise None w in
          Some (w, PcDone (Rejected e))
      end
  | PcStalled => None
  | PcDone _ => None
  end.

(** [close()]: the one callback of its chain.  The promise [conn.close()]
    returns is dropped; a [conn.close()] that throws rejects the chain. *)
Definition close (drv : Driver) (w : World) : World * outcome CoreRef :=
  match _connection (core w) with
  | None => (w, Resolved (this (core w)))
  | Some conn =>
      let w := set_connection None w in
      let '(w, c) := db_close drv conn w in
      (w, match c with
          | Returned _ => Resolved (this (core w))
          | Thrown e => Rejected e
          end)
  end.

(** [get connection()]. *)
Definition connection (w : World) : outcome Db :=
  match _connection (core w) with
  | None => Rejected "Iridium Core not connected to a database."
  | Some db => Resolved db
  end.

(** *** Several calls in flight *)

(** The state of the event loop: the world and the calls of [connect] made so
    far. *)
Definition System : Type := World * list Pc.



(** A schedule, written down: which of the three things happens next. *)
Inductive Move :=
  | MvCall                                   (* [connect()] is called *)
  | MvRun (i : nat)                          (* the queued callback of call [i] runs *)
  | MvSettle (p : PromiseId) (o : outcome Db).  (* the driver settles promise [p] *)

Definition move (hk : Hooks) (drv : Driver) (mv : Move) (s : System) : option System :=
  match mv with
  | MvCall => Some (s.1, s.2 ++ [PcStart])
  | MvRun i =>
      match s.2 !! i with
      | Some pc =>
          match connect_step hk drv s.1 pc with
          | Some (w', pc') => Some (w', <[i := pc']> s.2)
          | None => None
          end
      | None => None
      end
  | MvSettle p o =>
      match settle p o s.1 with
      | Some w' => Some (w', s.2)
      | None => None
      end
  end.

Fixpoint play (hk : Hooks) (drv : Driver) (ms : list Move) (s : System) : option System :=
  match ms with
  | [] => Some s
  | mv :: ms' =>
      match move hk drv mv s with
      | Some s' => play hk drv ms' s'
      | None => None
      end
  end.

(** A manager on which nothing is established or in flight. *)
Definition idle (c : Core) : Prop :=
  _connection c = None ∧ _connectPromise c = None.

Definition fresh_world (c : Core) : World :=
  {| core := c; promises := []; trace := [] |}.

(** The number of calls of the driver's [connect]. *)
Definition is_connect (e : Event) : bool :=
  match e with EvConnect _ _ => true | _ => false end.

Definition issued (w : World) : nat :=
  length (filter (λ e, is_connect e = true) (trace w)).



(** The driver settles every pending promise with [o]. *)
Definition settle_all (o : outcome Db) (w : World) : World :=
  {| core := core w;
     promises := (λ x, match x with None => Some o | Some _ => x end) <$> promises w;
     trace := trace w |}.

(** [n] calls of [connect] made together, run to completion: a round for the
    first callbacks, the driver's answer [o], and the four rounds the rest of
    the chain takes. *)
Definition connect_all (hk : Hooks) (drv : Driver) (o : outcome Db) (n : nat) (w : World)
  : System :=
  let '(w, ts) := sweep (connect_step hk drv) w (replicate n PcStart) in
  sweeps (connect_step hk drv) 4 (settle_all o w, ts).

(** A single call, alone: how the promise it returned settled. *)
Definition connect (hk : Hooks) (drv : Driver) (o : outcome Db) (w : World)
  : World * option (outcome CoreRef) :=
  let '(w, ts) := connect_all hk drv o 1 w in
  (w, match ts with [PcDone r] => Some r | _ => None end).

(** ** Documents in memory *)

(** A JavaScript value is a primitive or a reference to an object; an object
    is its list of own properties; the heap is the array of all objects, an
    object's address being its index.  Two references to one address are two
    names of one object: a write through either is seen through both. *)
Abbreviation addr := nat (only parsing).

Inductive value :=
  | VUndefined
  | VNull
  | VBool (b : bool)
  | VNum (n : Z)
  | VStr (s : string)
  | VRef (a : addr).

Global Instance value_eq_dec : EqDecision value.
Proof. solve_decision. Defined.

Abbreviation object := (list (string * value)) (only parsing).
Abbreviation Heap := (list (list (string * value))) (only parsing).

#[local] Unset Elimination Schemes.
(** What a value denotes, references followed: the value up to logical (deep)
    equality. *)
Inductive tree :=
  | TUndefined
  | TNull
  | TBool (b : bool)
  | TNum (n : Z)
  | TStr (s : string)
  | TObj (props : list (string * tree)).
#[local] Set Elimination Schemes.

Fixpoint read_props (read : value → option tree) (o : object)
  : option (list (string * tree)) :=
  match o with
  | [] => Some []
  | (k, v) :: o' =>
      match read v with
      | None => None
      | Some t =>
          match read_props read o' with
          | None => None
          | Some ts => Some ((k, t) :: ts)
          end
      end
  end.

(** [deep_read n h v]: the tree [v] denotes in [h], if it is reached within
    [n] levels of nesting. *)
Fixpoint deep_read (n : nat) (h : Heap) (v : value) : option tree :=
  match v with
  | VUndefined => Some TUndefined
  | VNull => Some TNull
  | VBool b => Some (TBool b)
  | VNum z => Some (TNum z)
  | VStr s => Some (TStr s)
  | VRef a =>
      match n with
      | 0 => None
      | S n' =>
          match h !! a with
          | None => None
          | Some o =>
              match read_props (deep_read n' h) o with
              | None => None
              | Some ts => Some (TObj ts)
              end
          end
      end
  end.

(** A heap of [length h] objects without cycles nests at most [length h]
    deep. *)
Definition tree_of (h : Heap) (v : value) : option tree :=
  deep_read (S (length h)) h v.

(** [obj[k] = v], in place. *)
Fixpoint set_prop (k : string) (v : value) (o : object) : object :=
  match o with
  | [] => [(k, v)]
  | (k', v') :: o' =>
      if String.eqb k k' then (k, v) :: o' else (k', v') :: set_prop k v o'
  end.

Definition write_prop (a : addr) (k : string) (v : value) (h : Heap) : Heap :=
  match h !! a with
  | Some o => <[a := set_prop k v o]> h
  | None => h
  end.

(** *** lodash

    A library the sources import.  [_.cloneDeep] "recursively clones value":
    that is what is modelled, on documents that are finite trees, as the
    driver returns them.  The recursion is bounded by the number of objects
    in memory, which the nesting of a finite tree does not exceed; on a
    value that is not a finite tree the model gives up ([None]). *)

Module Lodash.

Fixpoint clone_props (clone : Heap → value → option (Heap * value))
(h : Heap) (o : object) : option (Heap * object) :=
match o with
| [] => Some (h, [])
| (k, v) :: o' =>
  match clone h v with
  | None => None
  | Some (h1, v') =>
      match clone_props clone h1 o' with
      | None => None
      | Some (h2, o'') => Some (h2, (k, v') :: o'')
      end
  end
end.

(** [_.cloneDeep], recursion bounded by [n] levels of nesting: a primitive
is returned as it is; for an object a new one is created, and each
property of the original is cloned in turn and assigned to it. *)
Fixpoint clone_fuel (n : nat) (h : Heap) (v : value) : option (Heap * value) :=
match v with
| VRef a =>
  match n with
  | 0 => None
  | S n' =>
      match h !! a with
      | None => None
      | Some o =>
          let a' := length h in
          match clone_props (clone_fuel n') (h ++ [[]]) o with
          | None => None
          | Some (h', o') => Some (<[a' := o']> h', VRef a')
          end
      end
  end
| _ => Some (h, v)
end.

Definition cloneDeep (h : Heap) (v : value) : option (Heap * value) :=
clone_fuel (S (length h)) h v.

End Lodash.

(** ** Caches *)

(** The [Cache] interface: [set(key, value)], [get(key)], [clear(key)], each
    returning a promise.  [S] is the state a cache object keeps. *)
Class Cache (S : Type) := {
  cache_set : string → value → S → S * outcome value;
  cache_get : string → S → S * outcome value;
  cache_clear : string → S → S * outcome bool
}.

(** Modelled from the spec: [caches/NoOpCache], not among the sources.  "A
    no-op (never stores)", "every call is a no-op success". *)
Global Instance NoOpCache : Cache unit := {|
  cache_set := λ _ v s, (s, Resolved v);
  cache_get := λ _ s, (s, Resolved VUndefined);
  cache_clear := λ _ s, (s, Resolved false)
|}.

(** Modelled from the spec: [caches/MemoryCache], not among the sources.  "An
    in-process map (exact in-memory echo, no expiry, no size bound)"; [clear]
    "reports whether a removal actually occurred". *)
Global Instance MemoryCache : Cache (gmap string value) := {|
  cache_set := λ k v m, (<[k := v]> m, Resolved v);
  cache_get := λ k m, (m, Resolved (default VUndefined (m !! k)));
  cache_clear := λ k m, (delete k m, Resolved (bool_decide (is_Some (m !! k))))
|}.

(** What the round trip needs of a cache: [set] resolves with the value it
    was given, and a [get] of the same key that follows resolves with it
    too. *)
Class EchoCache (S : Type) `{Cache S} : Prop := {
  set_echo : ∀ k v s, (cache_set k v s).2 = Resolved v;
  get_set : ∀ k v s, (cache_get k (cache_set k v s).1).2 = Resolved v
}.

(** The policy of a model: which documents and queries are cached, and under
    which keys.  A director reads the objects it is given, nothing else. *)
Record CacheDirector := mkDirector {
  valid : Heap → value → bool;
  buildKey : Heap → value → string;
  validQuery : Heap → value → bool;
  buildQueryKey : Heap → value → string
}.

(** ** Models *)

(** The result of [helpers.validate]. *)
Record Validation := mkValidation {
  validation_failed : bool;
  validation_error : Err
}.

(** A hook is code of the model's author: it may change the objects in
    memory, and the promise it returns may reject. *)
Definition Hook (A : Type) : Type := Heap → A → Heap * outcome unit.

Section Model.
(** [T]: what the wrapper of a read returns; [S]: the state of the cache
set on the core. *)
Context {T S : Type} `{Cache S}.

(** [model.options.hooks]: each hook is optional. *)
Record ModelHooks := mkModelHooks {
creating : option (Hook value);
retrieved : option (Hook value);
ready : option (Hook T);
saving : option (Hook (T * value))
}.

Record Model := mkModel {
hooks : ModelHooks;
cacheDirector : option CacheDirector;
validate : Heap → value → Validation;   (* [model.helpers.validate] *)
is_Instance : T → bool                   (* [x instanceof model.Instance] *)
}.

(** Calls that leave the pipeline, in the order they are made. *)
Inductive Call :=
| CallRetrieved (doc : value)
| CallCreating (doc : value)
| CallReady
| CallSaving
| CallValidate (doc : value)
| CallModelCacheSet (doc : value)
| CallCacheSet (key : string) (doc : value)
| CallCacheGet (key : string)
| CallCacheClear (key : string)
| CallWrapper (doc : value) (isNew isPartial : bool).

(** The memory, the cache set on the model's core ([None]: the property
holds nothing) and the calls made so far. *)
Record MWorld := mkMWorld {
heap : Heap;
cache : option S;
calls : list Call
}.

Definition call (c : Call) (w : MWorld) : MWorld :=
{| heap := heap w; cache := cache w; calls := calls w ++ [c] |}.

Definition with_heap (h : Heap) (w : MWorld) : MWorld :=
{| heap := h; cache := cache w; calls := calls w |}.

Definition with_cache (s : S) (w : MWorld) : MWorld :=
{| heap := heap w; cache := Some s; calls := calls w |}.

(** [hook(arg)]. *)
Definition run_hook {A} (hk : Hook A) (c : Call) (arg : A) (w : MWorld)
: MWorld * outcome unit :=
let '(h, r) := hk (heap w) arg in
(with_heap h (call c w), r).

(** Calling a property that holds nothing throws. *)
Definition TypeError : Err := "TypeError: undefined is not a function".
End Model.

Arguments ModelHooks : clear implicits.
Arguments Model : clear implicits.
Arguments MWorld : clear implicits.

(** ** ModelCache *)

Module ModelCache.
Section ModelCache.
Context {T S : Type} `{Cache S}.

(** [ModelCache.prototype.set]. *)
Definition set (m : Model T) (v : value) (w : MWorld S) : MWorld S * outcome value :=
let w := call (CallModelCacheSet v) w in
match cacheDirector m with
| None => (w, Resolved v)
| Some d =>
  if negb (valid d (heap w) v) then (w, Resolved v)
  else
    match cache w with
    | None => (w, Rejected TypeError)
    | Some s =>
        let key := buildKey d (heap w) v in
        let '(s', r) := cache_set key v s in
        (with_cache s' (call (CallCacheSet key v) w), r)
    end
end.

(** [ModelCache.prototype.get]. *)
Definition get (m : Model T) (conditions : value) (w : MWorld S)
: MWorld S * outcome value :=
match cacheDirector m with
| None => (w, Resolved VNull)
| Some d =>
  if negb (validQuery d (heap w) conditions) then (w, Resolved VNull)
  else
    match cache w with
    | None => (w, Rejected TypeError)
    | Some s =>
        let key := buildQueryKey d (heap w) conditions in
        let '(s', r) := cache_get key s in
        (with_cache s' (call (CallCacheGet key) w), r)
    end
end.

(** [ModelCache.prototype.clear]. *)
Definition clear (m : Model T) (conditions : value) (w : MWorld S)
: MWorld S * outcome bool :=
match cacheDirector m with
| None => (w, Resolved false)
| Some d =>
  if negb (validQuery d (heap w) conditions) then (w, Resolved false)
  else
    match cache w with
    | None => (w, Rejected TypeError)
    | Some s =>
        let key := buildQueryKey d (heap w) conditions in
        let '(s', r) := cache_clear key s in
        (with_cache s' (call (CallCacheClear key) w), r)
    end
end.
End ModelCache.
End ModelCache.

(** ** ModelHandlers *)

(** [ModelOptions.QueryOptions]: what the pipeline reads of it.  [fields] is
    the projection of the read, an object from field names to numbers. *)
Record QueryOptions := mkQueryOptions {
  opt_cache : option bool;
  opt_partial : option bool;
  opt_fields : option (list (string * Z))
}.

Module ModelHandlers.
Section ModelHandlers.
Context {T S : Type} `{Cache S}.

(** A chain of [then] callbacks over the world: a rejection skips the
callbacks that follow. *)
Definition Chain (A : Type) : Type := MWorld S → MWorld S * outcome A.

Definition then_ {A B} (c : Chain A) (k : A → Chain B) : Chain B :=
λ w, let '(w', r) := c w in
   match r with
   | Resolved a => k a w'
   | Rejected e => (w', Rejected e)
   end.

Definition resolve {A} (a : A) : Chain A := λ w, (w, Resolved a).

(** [_.defaults(options, { cache: true, partial: false })]: a property is
filled in where the caller left it undefined. *)
Definition defaults (o : QueryOptions) : QueryOptions :=
{| opt_cache := Some (default true (opt_cache o));
 opt_partial := Some (default false (opt_partial o));
 opt_fields := opt_fields o |}.

Definition truthy (b : option bool) : bool := default false b.

(** The first callback of [documentReceived]: the [retrieved] hook. *)
Definition received_hook (m : Model T) (target : value) : Chain unit :=
match retrieved (hooks m) with
| Some hk => run_hook hk (CallRetrieved target) target
| None => resolve ()
end.

(** The second: the copy for the cache.  Where [Lodash.cloneDeep] gives up,
on a document that is not a finite tree, the chain is cut with a
rejection. *)
Definition received_cache (m : Model T) (target : value) (options : QueryOptions)
: Chain unit :=
λ w,
if bool_decide (is_Some (cache w)) && truthy (opt_cache options)
   && negb (bool_decide (is_Some (opt_fields options)))
then
  match Lodash.cloneDeep (heap w) target with
  | None => (w, Rejected "RangeError: Maximum call stack size exceeded")
  | Some (h, cacheDoc) =>
      let '(w, r) := ModelCache.set m cacheDoc (with_heap h w) in
      (w, match r with Resolved _ => Resolved () | Rejected e => Rejected e end)
  end
else (w, Resolved ()).

(** The third: the wrapper and the [ready] hook. *)
Definition received_wrap (m : Model T) (target : value)
(wrapper : value → bool → bool → T) (options : QueryOptions) : Chain T :=
λ w,
let isPartial := bool_decide (is_Some (opt_fields options)) in
let wrapped := wrapper target false isPartial in
let w := call (CallWrapper target false isPartial) w in
match ready (hooks m) with
| Some hk =>
    if is_Instance m wrapped then
      let '(w, r) := run_hook hk CallReady wrapped w in
      (w, match r with Resolved _ => Resolved wrapped | Rejected e => Rejected e end)
    else (w, Resolved wrapped)
| None => (w, Resolved wrapped)
end.

(** [documentReceived(conditions, result, wrapper, options)]. *)
Definition documentReceived (m : Model T) (conditions : value) (result : value)
(wrapper : value → bool → bool → T) (options : QueryOptions) : Chain T :=
let options := defaults options in
then_ (resolve result) (λ target,
then_ (then_ (received_hook m target)
             (λ _, received_cache m target options))
      (λ _, received_wrap m target wrapper options)).

(** Where the branch of one document stands in [creatingDocuments]. *)
Inductive Branch :=
| BStart (doc : value)             (* the first callback is queued *)
| BHooked (doc : value)            (* the second callback is queued *)
| BDone (o : outcome value).       (* the branch has settled *)

(** What the second callback settles its branch with: the rejection
[Bluebird.reject(validation.error)], or the document. *)
Definition validated (validation : Validation) (doc : value) : outcome value :=
if validation_failed validation
then Rejected (validation_error validation)
else Resolved doc.

(** One callback of a branch.  The condition of the first reads
[hooks.retrieved]; what it calls is [hooks.creating]. *)
Definition creating_step (m : Model T) (w : MWorld S) (b : Branch)
: option (MWorld S * Branch) :=
match b with
| BStart doc =>
  match retrieved (hooks m) with
  | Some _ =>
      match creating (hooks m) with
      | Some hk =>
          let '(w, r) := run_hook hk (CallCreating doc) doc w in
          Some (w, match r with
                   | Resolved _ => BHooked doc
                   | Rejected e => BDone (Rejected e)
                   end)
      | None => Some (w, BDone (Rejected TypeError))
      end
  | None => Some (w, BHooked doc)
  end
| BHooked doc =>
  let validation := validate m (heap w) doc in
  let w := call (CallValidate doc) w in
  Some (w, BDone (if validation_failed validation
                  then Rejected (validation_error validation)
                  else Resolved doc))
| BDone _ => None
end.

(** The first rejection of a list of branches, by position, and the values
of those that resolved. *)
Definition first_rejection (bs : list Branch) : option Err :=
head (omap (λ b, match b with BDone (Rejected e) => Some e | _ => None end) bs).

Definition resolved_values (bs : list Branch) : list value :=
omap (λ b, match b with BDone (Resolved v) => Some v | _ => None end) bs.

Definition settled (b : Branch) : bool :=
match b with BDone _ => true | _ => false end.

(** [Bluebird.all] watches the branches: it is rejected with the error of the
branch that is rejected first, in time, and settles once.  Its state is
that error, if there has been one.  A callback of a branch, and what
[Bluebird.all] sees of it. *)
Definition all_step (m : Model T) (s : MWorld S * option Err) (b : Branch)
: option ((MWorld S * option Err) * Branch) :=
match creating_step m s.1 b with
| Some (w', b') =>
  Some ((w', match s.2, b' with
             | None, BDone (Rejected e) => Some e
             | r, _ => r
             end), b')
| None => None
end.

(** What the promise [Bluebird.all] returned has settled with, if it has:
the first rejection, or, when every branch has resolved, the array of
their values, in the order of the branches. *)
Definition all_outcome (r : option Err) (bs : list Branch)
: option (outcome (list value)) :=
match r with
| Some e => Some (Rejected e)
| None => if forallb settled bs then Some (Resolved (resolved_values bs)) else None
end.

(** The branches run as a schedule says: [i] in the list means that the
queued callback of branch [i] runs next (nothing happens if it has
none). *)
Fixpoint all_run (m : Model T) (schedule : list nat)
  (s : (MWorld S * option Err) * list Branch) : (MWorld S * option Err) * list Branch :=
match schedule with
| [] => s
| i :: schedule' =>
  match s.2 !! i with
  | Some b =>
      match all_step m s.1 b with
      | Some (s1, b') => all_run m schedule' (s1, <[i := b']> s.2)
      | None => all_run m schedule' s
      end
  | None => all_run m schedule' s
  end
end.

(** [creatingDocuments(documents)] when the callbacks run in the order they
were queued: the first callbacks of the branches, one per document, in a
first round, the second in a second round.  Every branch has settled
then, and so has [Bluebird.all]: with the rejection that came first, or
with the array of the values. *)
Definition creatingDocuments (m : Model T) (documents : list value) (w : MWorld S)
: MWorld S * list Branch * outcome (list value) :=
let '((w1, r1), bs1) := sweep (all_step m) (w, None) (BStart <$> documents) in
let '((w2, r2), bs2) := sweep (all_step m) (w1, r1) bs1 in
(w2, bs2,
 match r2 with
 | Some e => Rejected e
 | None => Resolved (resolved_values bs2)
 end).

(** [savingDocument(instance, changes)]. *)
Definition savingDocument (m : Model T) (instance : T) (changes : value) : Chain T :=
then_ (match saving (hooks m) with
     | Some hk => run_hook hk CallSaving (instance, changes)
     | None => resolve ()
     end)
    (λ _, resolve instance).
End ModelHandlers.
End ModelHandlers.

(** ** Reading the calls *)

(** The documents [ModelCache.set] was called with, and the entries written
    to the cache of the core, in order. *)
Definition model_cache_writes (cs : list Call) : list value :=
  omap (λ c, match c with CallModelCacheSet v => Some v | _ => None end) cs.

Definition cache_writes (cs : list Call) : list (string * value) :=
  omap (λ c, match c with CallCacheSet k v => Some (k, v) | _ => None end) cs.

(** The flags the wrapper was called with. *)
Definition wrapper_calls (cs : list Call) : list (value * bool * bool) :=
  omap (λ c, match c with
             | CallWrapper v isNew isPartial => Some (v, isNew, isPartial)
             | _ => None
             end) cs.

(** The documents the [creating] hook was called with. *)
Definition creating_calls (cs : list Call) : list value :=
  omap (λ c, match c with CallCreating v => Some v | _ => None end) cs.



(** A director that caches every document and every query that has an [_id],
    under the decimal numeral of that [_id]. *)
Definition prop_of (h : Heap) (v : value) (k : string) : value :=
  match v with
  | VRef a =>
      match h !! a with
      | Some o => default VUndefined (snd <$> find (λ kv, String.eqb kv.1 k) o)
      | None => VUndefined
      end
  | _ => VUndefined
  end.

Definition id_key (h : Heap) (v : value) : option string :=
  match prop_of h v "_id" with
  | VNum n => Some (JS.num_to_string (Z.to_N n))
  | VStr s => Some s
  | _ => None
  end.

Definition id_director : CacheDirector :=
  {| valid := λ h v, bool_decide (is_Some (id_key h v));
     buildKey := λ h v, default "" (id_key h v);
     validQuery := λ h v, bool_decide (is_Some (id_key h v));
     buildQueryKey := λ h v, default "" (id_key h v) |}.

(** A model without hooks that caches by [_id], and a memory that holds one
    document with a nested array. *)
Definition plain_model : Model (value * bool * bool) :=
  {| hooks := {| creating := None; retrieved := None; ready := None; saving := None |};
     cacheDirector := Some id_director;
     validate := λ _ _, mkValidation false "";
     is_Instance := λ _, true |}.

Definition one_document : MWorld (gmap string value) :=
  {| heap := [[("_id", VNum 7); ("tags", VRef 1)]; [("0", VStr "a")]];
     cache := Some ∅; calls := [] |}.

(** A model that differs from another in its [creating] and [retrieved]
    hooks. *)
Definition with_hooks {T : Type} (cr rt : option (Hook value)) (m : Model T) : Model T :=
  {| hooks := {| creating := cr; retrieved := rt;
                 ready := ready (hooks m); saving := saving (hooks m) |};
     cacheDirector := cacheDirector m;
     validate := validate m;
     is_Instance := is_Instance m |}.

(** ** Further readings of the traces and configurations *)

(** The calls of the two hooks of the manager. *)
Definition is_onConnecting (e : Event) : bool :=
  match e with EvOnConnecting _ => true | _ => false end.

Definition is_onConnected (e : Event) : bool :=
  match e with EvOnConnected => true | _ => false end.

Definition count_events (p : Event → bool) (w : World) : nat :=
  length (filter (λ e, p e = true) (trace w)).

(** [cfg] with one more entry at the end of [hosts]. *)
Definition add_host (h : Host) (cfg : Configuration) : Configuration :=
  {| username := username cfg; password := password cfg;
     host := host cfg; port := port cfg;
     hosts := Some (default [] (hosts cfg) ++ [h]);
     database := database cfg |}.

(** A manager built from a configuration. *)
Definition core_of_config (self : CoreRef) (cfg : Configuration) : Core :=
  {| this := self; _url := None; _config := Some cfg;
     _connection := None; _connectPromise := None |}.

(** What removal needs of a cache: [clear] of a key that was just set reports
    a removal, a [get] of the key that follows finds nothing, and a second
    [clear] reports none. *)
Class ClearCache (S : Type) `{Cache S} : Prop := {
  clear_set : ∀ k v s, (cache_clear k (cache_set k v s).1).2 = Resolved true;
  get_clear : ∀ k s, (cache_get k (cache_clear k s).1).2 = Resolved VUndefined;
  clear_clear : ∀ k s, (cache_clear k (cache_clear k s).1).2 = Resolved false
}.

(** * Properties *)

(** ** The connection target *)

Section Uniq.
Implicit Types (l seen : list string) (x : string).

Lemma uniq_from_elem seen l x :
x ∈ JS.uniq_from seen l ↔ x ∈ l ∧ x ∉ seen.
Proof.
revert seen. induction l as [|y l IH]; intros seen; simpl.
- set_solver.
- case_bool_decide as Hy.
+ rewrite IH. set_solver.
+ rewrite elem_of_cons, IH. split.
  * intros [->|[? ?]]; set_solver.
  * intros [Hx ?]. apply elem_of_cons in Hx as [->|?]; [by left|].
    destruct (decide (x = y)) as [->|]; [by left|]. right. set_solver.
Qed.

Lemma uniq_from_NoDup seen l : NoDup (JS.uniq_from seen l).
Proof.
revert seen. induction l as [|y l IH]; intros seen; simpl.
- constructor.
- case_bool_decide; [apply IH|]. constructor; [|apply IH].
rewrite uniq_from_elem. set_solver.
Qed.

Lemma uniq_from_sublist seen l : sublist (JS.uniq_from seen l) l.
Proof.
revert seen. induction l as [|y l IH]; intros seen; simpl.
- constructor.
- case_bool_decide; [apply sublist_cons|apply sublist_skip]; apply IH.
Qed.

Lemma uniq_from_equiv seen1 seen2 l :
(∀ z, z ∈ seen1 ↔ z ∈ seen2) → JS.uniq_from seen1 l = JS.uniq_from seen2 l.
Proof.
revert seen1 seen2. induction l as [|y l IH]; intros seen1 seen2 Heq; [done|].
simpl. rewrite (bool_decide_ext _ _ (Heq y)).
case_bool_decide; [by apply IH|].
f_equal. apply IH. intros z. rewrite !elem_of_cons, Heq. done.
Qed.

Lemma uniq_from_seen seen l x :
JS.uniq_from (x :: seen) l = JS.uniq_from seen (filter (λ y, y ≠ x) l).
Proof.
revert seen. induction l as [|y l IH]; intros seen; [done|].
simpl. rewrite filter_cons. destruct (decide (y ≠ x)) as [Hne|Heq].
- simpl. rewrite (bool_decide_ext (y ∈ x :: seen) (y ∈ seen)).
2: { rewrite elem_of_cons. naive_solver. }
case_bool_decide; [apply IH|].
f_equal. rewrite <- IH. apply uniq_from_equiv.
intros z. rewrite !elem_of_cons. naive_solver.
- apply dec_stable in Heq as ->.
rewrite bool_decide_true by (apply elem_of_cons; by left). apply IH.
Qed.

(** [_.uniq] keeps the first occurrence of every element. *)
Lemma uniq_cons x l : JS.uniq (x :: l) = x :: JS.uniq (filter (λ y, y ≠ x) l).
Proof.
unfold JS.uniq. simpl. by rewrite uniq_from_seen.
Qed.
End Uniq.

Lemma append_cons a (s1 s2 : string) : String a s1 +:+ s2 = String a (s1 +:+ s2).
Proof. reflexivity. Qed.

Lemma append_assoc (s1 s2 s3 : string) : (s1 +:+ s2) +:+ s3 = s1 +:+ s2 +:+ s3.
Proof. induction s1 as [|a s1 IH]; [done|]. rewrite !append_cons. by f_equal. Qed.

Lemma append_nil_r (s : string) : s +:+ "" = s.
Proof. induction s as [|a s IH]; [done|]. rewrite append_cons. by f_equal. Qed.

Lemma truthy_str_str (s : option string) :
  JS.truthy_str s = true → present_str s = Some (JS.str s).
Proof. destruct s as [s|]; simpl; [|done]. by destruct (String.eqb s ""). Qed.

Lemma falsy_str_absent (s : option string) :
  JS.truthy_str s = false → present_str s = None.
Proof. destruct s as [s|]; simpl; [|done]. by destruct (String.eqb s ""). Qed.

Lemma truthy_num_present (n : option N) :
  JS.truthy_num n = true → present_num n = Some (default 0%N n).
Proof. destruct n as [n|]; simpl; [|done]. by destruct (N.eqb n 0). Qed.

Lemma falsy_num_absent (n : option N) :
  JS.truthy_num n = false → present_num n = None.
Proof. destruct n as [n|]; simpl; [|done]. by destruct (N.eqb n 0). Qed.

Lemma push_host_entry shared acc h :
  push_host shared acc h = acc ++ [host_entry (address h) (host_port h) shared].
Proof.
  unfold push_host, host_entry.
  destruct (JS.truthy_num (host_port h)) eqn:Hown.
  - by rewrite (truthy_num_present _ Hown).
  - rewrite (falsy_num_absent _ Hown).
    destruct (JS.truthy_num shared) eqn:Hsh.
    + by rewrite (truthy_num_present _ Hsh).
    + by rewrite (falsy_num_absent _ Hsh).
Qed.

Lemma fold_push_host shared l acc :
  fold_left (push_host shared) l acc
  = acc ++ map (λ h, host_entry (address h) (host_port h) shared) l.
Proof.
  revert acc. induction l as [|h l IH]; intros acc; simpl.
  - by rewrite app_nil_r.
  - rewrite IH, push_host_entry, <- app_assoc. done.
Qed.

(** The getter builds what the specification's wording builds. *)
Lemma url_of_config (c : Core) (cfg : Configuration) :
  JS.truthy_str (_url c) = false →
  _config c = Some cfg →
  url c = Resolved (target cfg).
Proof.
  intros Hurl Hcfg. unfold url. rewrite Hurl, Hcfg. f_equal.
  unfold target, credentials, host_list, host_entries, database_segment.
  assert (Hhosts :
    (if JS.truthy_str (host cfg)
     then if JS.truthy_num (port cfg)
          then [] ++ [JS.str (host cfg) +:+ ":" +:+
                      JS.num_to_string (default 0%N (port cfg))]
          else [] ++ [JS.str (host cfg)]
     else [])
    = match present_str (host cfg) with
      | Some a => [host_entry a None (port cfg)]
      | None => []
      end).
  { destruct (JS.truthy_str (host cfg)) eqn:Hh.
    - rewrite (truthy_str_str _ Hh). unfold host_entry. simpl.
      destruct (JS.truthy_num (port cfg)) eqn:Hp.
      + by rewrite (truthy_num_present _ Hp).
      + by rewrite (falsy_num_absent _ Hp).
    - by rewrite (falsy_str_absent _ Hh). }
  rewrite Hhosts. clear Hhosts.
  set (single := match present_str (host cfg) with
                 | Some a => [host_entry a None (port cfg)]
                 | None => []
                 end).
  assert (Hall :
    match hosts cfg with
    | Some l => fold_left (push_host (port cfg)) l single
    | None => single
    end
    = single ++ map (λ h, host_entry (address h) (host_port h) (port cfg))
                    (default [] (hosts cfg))).
  { destruct (hosts cfg) as [l|]; simpl.
    - apply fold_push_host.
    - by rewrite app_nil_r. }
  rewrite Hall. clear Hall.
  set (es := single ++ _).
  assert (Hlist :
    ∀ pre, (if negb (Nat.eqb (length es) 0) then pre +:+ JS.join "," (JS.uniq es)
            else pre +:+ "localhost")
           = pre +:+ match es with
                     | [] => "localhost"
                     | s :: l => JS.join "," (JS.uniq (s :: l))
                     end).
  { intros pre. by destruct es. }
  rewrite Hlist. clear Hlist.
  set (hl := match es with [] => "localhost" | _ => _ end).
  destruct (JS.truthy_str (username cfg)) eqn:Hu.
  - rewrite (truthy_str_str _ Hu).
    destruct (JS.truthy_str (password cfg)) eqn:Hpw.
    + rewrite (truthy_str_str _ Hpw).
      destruct (JS.truthy_str (database cfg)) eqn:Hd.
      * rewrite (truthy_str_str _ Hd). by rewrite ?append_assoc.
      * rewrite (falsy_str_absent _ Hd). by rewrite ?append_assoc, ?append_nil_r.
    + rewrite (falsy_str_absent _ Hpw).
      destruct (JS.truthy_str (database cfg)) eqn:Hd.
      * rewrite (truthy_str_str _ Hd). by rewrite ?append_assoc.
      * rewrite (falsy_str_absent _ Hd). by rewrite ?append_assoc, ?append_nil_r.
  - rewrite (falsy_str_absent _ Hu).
    destruct (JS.truthy_str (database cfg)) eqn:Hd.
    + rewrite (truthy_str_str _ Hd). by rewrite ?append_assoc.
    + rewrite (falsy_str_absent _ Hd). by rewrite ?append_assoc, ?append_nil_r.
Qed.

Lemma url_of_literal (c : Core) (s : string) :
  _url c = Some s → s ≠ "" → url c = Resolved s.
Proof.
  intros Hs Hne. unfold url. rewrite Hs. simpl.
  destruct (String.eqb_spec s ""); [done|]. done.
Qed.

(** C8 (as amended).  A manager constructed with a non-empty literal string
    resolves its target to exactly that string, whatever the configuration
    holds.  A manager constructed with a configuration object, or with the
    empty string and a configuration, resolves it to
    [mongodb://[user[:password]@]hosts[/database]] as [target] spells it out:
    a field is present when it is a non-empty string or a non-zero number;
    the single host is a bare address and takes the shared port; an
    additional host takes its own port, else the shared one, else none; the
    list keeps the first occurrence of every entry, in order; with no host at
    all it is [localhost], without a port. *)
Theorem url_resolves_target :
  (∀ self s o, s ≠ "" →
     ∃ c, new_Core self (ArgString s) o = Resolved c ∧ url c = Resolved s)
  ∧ (∀ self cfg o,
     ∃ c, new_Core self (ArgConfig cfg) o = Resolved c ∧ url c = Resolved (target cfg))
  ∧ (∀ self cfg,
     ∃ c, new_Core self (ArgString "") (Some cfg) = Resolved c
          ∧ url c = Resolved (target cfg))
  ∧ (∀ l, NoDup (JS.uniq l) ∧ sublist (JS.uniq l) l ∧ (∀ x, x ∈ JS.uniq l ↔ x ∈ l))
  ∧ (∀ x l, JS.uniq (x :: l) = x :: JS.uniq (filter (λ y, y ≠ x) l))
  ∧ (∀ p, host_list (config_of_hosts None p None) = "localhost")
  ∧ host_list (config_of_hosts (Some "a") (Some 2%N) (Some [mkHost "b" None])) = "a:2,b:2"
  ∧ host_list (config_of_hosts None (Some 2%N)
                 (Some [mkHost "a" (Some 1%N); mkHost "b" None])) = "a:1,b:2".
Proof.
  split; [|split; [|split; [|split; [|split; [|split; [|split]]]]]].
  - intros self s o Hne. eexists. split; [done|]. by apply url_of_literal.
  - intros self cfg o. eexists. split; [done|]. by apply url_of_config.
  - intros self cfg. eexists. split; [done|]. by apply url_of_config.
  - intros l. split; [apply uniq_from_NoDup|]. split; [apply uniq_from_sublist|].
    intros x. unfold JS.uniq. rewrite uniq_from_elem. set_solver.
  - apply uniq_cons.
  - done.
  - done.
  - done.
Qed.

Lemma url_resolves_target_witness :
  "mongodb://db.example:27017/app" ≠ ""
  ∧ ∃ c, new_Core 7 (ArgString "mongodb://db.example:27017/app") None = Resolved c
         ∧ url c = Resolved "mongodb://db.example:27017/app".
Proof.
  split; [discriminate|].
  apply (proj1 url_resolves_target 7 "mongodb://db.example:27017/app" None).
  discriminate.
Defined.

(** C8, as stated, fails.  The empty string is a literal string, yet the
    target is built from the configuration; and the single host has no port
    of its own, so that host [a] with the shared port 2 and the additional
    host [b] give [a:2,b:2], not [a:1,b:2]. *)
Lemma url_literal_counterexample :
  let cfg := {| username := None; password := None; host := None; port := None;
                hosts := None; database := Some "app" |} in
  (∃ c, new_Core 0 (ArgString "") (Some cfg) = Resolved c
        ∧ url c = Resolved "mongodb://localhost/app"
        ∧ url c ≠ Resolved "")
  ∧ (∃ c, new_Core 0 (ArgConfig (config_of_hosts (Some "a") (Some 2%N)
                                   (Some [mkHost "b" None]))) None = Resolved c
          ∧ url c = Resolved "mongodb://a:2,b:2"
          ∧ url c ≠ Resolved "mongodb://a:1,b:2").
Proof.
  split.
  - eexists. split; [reflexivity|]. split; [reflexivity|discriminate].
  - eexists. split; [reflexivity|]. split; [reflexivity|discriminate].
Qed.

Example url_examples :
  let core_of cfg := {| this := 0; _url := None; _config := Some cfg;
                        _connection := None; _connectPromise := None |} in
  url (core_of (mkConfiguration (Some "u") (Some "p") (Some "h") (Some 27017%N)
                  None (Some "db")))
  = Resolved "mongodb://u:p@h:27017/db"
  ∧ url (core_of (mkConfiguration (Some "u") None None None None None))
    = Resolved "mongodb://u@localhost"
  ∧ url (core_of (mkConfiguration None (Some "p") None (Some 27017%N) None None))
    = Resolved "mongodb://localhost"
  ∧ url (core_of (mkConfiguration None None (Some "a") None
                    (Some [mkHost "a" None; mkHost "b" None; mkHost "a" None]) None))
    = Resolved "mongodb://a,b"
  ∧ url {| this := 0; _url := Some ""; _config := None;
           _connection := None; _connectPromise := None |}
    = Rejected "No URL or configuration provided".
Proof. done. Qed.

(** ** Closing *)

(** C6, as amended.  On a manager without a connection [close] changes
    nothing and resolves with the manager, so that a second [close] after a
    first one is a no-op that resolves with the manager; on a manager with a
    connection it first clears [_connection] and then releases the handle;
    whenever the release call returns, the promise resolves with the manager,
    whatever the promise that the release returned settles with.  When the
    release call throws, [close] is rejected with what was thrown. *)
Theorem close_resolves_with_manager (drv : Driver) (w : World) :
  (_connection (core w) = None → close drv w = (w, Resolved (this (core w))))
  ∧ close drv (close drv w).1 = ((close drv w).1, Resolved (this (core w)))
  ∧ (∀ conn, _connection (core w) = Some conn →
       trace (close drv w).1 = trace w ++ [EvConnection None; EvRelease conn]
       ∧ _connection (core (close drv w).1) = None
       ∧ connection (close drv w).1
         = Rejected "Iridium Core not connected to a database."
       ∧ (∀ r, close_result drv conn = Returned r →
               (close drv w).2 = Resolved (this (core w)))
       ∧ (∀ e, close_result drv conn = Thrown e → (close drv w).2 = Rejected e)).
Proof.
  destruct w as [[self u cfg [conn|] cp] ps tr]; unfold close, connection, db_close;
    simpl.
  - split; [done|]. split; [done|].
    intros ? [= <-]. split; [by rewrite <- app_assoc|]. split; [done|].
    split; [done|]. split; by intros ? ->.
  - repeat split; done.
Qed.

Lemma close_resolves_with_manager_witness :
  let drv := mkDriver (λ _, Returned (Rejected "socket")) in
  let broken := mkDriver (λ _, Thrown "topology was destroyed") in
  let c := {| this := 1; _url := Some "mongodb://h"; _config := None;
              _connection := None; _connectPromise := None |} in
  let w := {| core := c; promises := []; trace := [] |} in
  let w5 := set_connection (Some 5) w in
  close drv w = (w, Resolved 1)
  ∧ trace (close drv w5).1 = trace w5 ++ [EvConnection None; EvRelease 5]
  ∧ _connection (core (close drv w5).1) = None
  ∧ connection (close drv w5).1 = Rejected "Iridium Core not connected to a database."
  ∧ (close drv w5).2 = Resolved 1
  ∧ (close broken w5).2 = Rejected "topology was destroyed".
Proof.
  intros drv broken c w w5.
  split; [exact (proj1 (close_resolves_with_manager drv w) eq_refl)|].
  destruct (proj2 (proj2 (close_resolves_with_manager drv w5)) 5 eq_refl)
    as (Htr & Hc & Hconn & Hret & _).
  destruct (proj2 (proj2 (close_resolves_with_manager broken w5)) 5 eq_refl)
    as (_ & _ & _ & _ & Hthrow).
  split; [exact Htr|]. split; [exact Hc|]. split; [exact Hconn|].
  split; [exact (Hret (Rejected "socket") eq_refl)|].
  exact (Hthrow "topology was destroyed" eq_refl).
Defined.

(** C6, the claim as it stands: a release that throws is surfaced. *)
Lemma close_surfaces_thrown_release :
  let drv := mkDriver (λ _, Thrown "topology was destroyed") in
  let w := {| core := {| this := 1; _url := Some "mongodb://h"; _config := None;
                         _connection := Some 5; _connectPromise := None |};
              promises := []; trace := [] |} in
  (close drv w).2 = Rejected "topology was destroyed"
  ∧ (close drv w).2 ≠ Resolved 1
  ∧ trace (close drv w).1 = [EvConnection None; EvRelease 5].
Proof. done. Qed.

Example close_twice :
  let drv := mkDriver (λ _, Returned (Rejected "socket")) in
  let w := {| core := {| this := 1; _url := Some "mongodb://h"; _config := None;
                         _connection := Some 5; _connectPromise := None |};
              promises := []; trace := [] |} in
  (close drv w).2 = Resolved 1
  ∧ trace (close drv w).1 = [EvConnection None; EvRelease 5]
  ∧ close drv (close drv w).1 = ((close drv w).1, Resolved 1).
Proof. done. Qed.

(** ** Rounds and schedules *)

Section TasksFacts.
Context {W P : Type} (step : W → P → option (W * P)).



(** What every callback keeps, a round keeps. *)
Lemma sweep_invariant (I : W → Prop) (A : P → Prop) :
(∀ w pc w' pc', I w → A pc → step w pc = Some (w', pc') → I w' ∧ A pc') →
∀ w ts, I w → Forall A ts →
I (sweep step w ts).1 ∧ Forall A (sweep step w ts).2.
Proof.
intros Hstep w ts. revert w. induction ts as [|pc ts IH]; intros w Hw Hts; simpl.
- done.
- apply Forall_cons in Hts as [Hpc Hts].
destruct (step w pc) as [[w' pc']|] eqn:Hs.
+ destruct (Hstep w pc w' pc' Hw Hpc Hs) as [Hw' Hpc'].
  specialize (IH w' Hw' Hts).
  destruct (sweep step w' ts) as [w'' ts'']. simpl in *.
  destruct IH. split; [done|by constructor].
+ specialize (IH w Hw Hts).
  destruct (sweep step w ts) as [w'' ts'']. simpl in *.
  destruct IH. split; [done|by constructor].
Qed.

Lemma sweeps_invariant (I : W → Prop) (A : P → Prop) :
(∀ w pc w' pc', I w → A pc → step w pc = Some (w', pc') → I w' ∧ A pc') →
∀ n s, I s.1 → Forall A s.2 →
I (sweeps step n s).1 ∧ Forall A (sweeps step n s).2.
Proof.
intros Hstep n. induction n as [|n IH]; intros s Hw Hts; simpl; [done|].
destruct (sweep_invariant I A Hstep s.1 s.2 Hw Hts). by apply IH.
Qed.
End TasksFacts.

(** ** Connecting *)

(** Case analysis along a callback: on what it reads, then on what it
    returns. *)
Ltac step_cases :=
  repeat (first [progress simplify_eq | case_match]; simpl in * ).

Ltac count_issued :=
  unfold issued, emit, set_connection, set_connectPromise; simpl;
  rewrite ?filter_app, ?length_app; simpl; try lia.
















(** A round in which every call does the same thing to an unchanged world. *)
Lemma sweep_same hk drv w (a b : Pc) n :
  connect_step hk drv w a = Some (w, b) →
  sweep (connect_step hk drv) w (replicate n a) = (w, replicate n b).
Proof.
  intros Hstep. induction n as [|n IH]; cbn [replicate sweep]; [done|].
  by rewrite Hstep, IH.
Qed.

(** Only a first callback issues a [connect] of the driver. *)
Lemma connect_step_no_issue hk drv w pc w' pc' :
  pc ≠ PcStart →
  connect_step hk drv w pc = Some (w', pc') →
  issued w' = issued w ∧ pc' ≠ PcStart.
Proof.
  destruct w as [[self u cfg conn cp] ps tr]. unfold connect_step.
  intros Hpc Hstep.
  destruct pc; simpl in *; step_cases; try done; (split; [count_issued|done]).
Qed.

(** Calls made together issue one [connect], whatever comes of it. *)
Lemma connect_all_one_issue hk drv c n target o :
  idle c →
  url c = Resolved target →
  issued (connect_all hk drv o (S n) (fresh_world c)).1 = 1.
Proof.
  intros [Hc Hp] Hurl.
  set (w1 := set_connectPromise (Some 0)
               (emit (EvConnect target 0)
                  {| core := c; promises := [None]; trace := [] |})).
  assert (connect_step hk drv (fresh_world c) PcStart = Some (w1, PcAwait 0)) as H0.
  { unfold connect_step, fresh_world. simpl. by rewrite Hc, Hp, Hurl. }
  assert (connect_step hk drv w1 PcStart = Some (w1, PcAwait 0)) as H1.
  { unfold connect_step, w1. simpl. by rewrite Hc. }
  unfold connect_all. cbn [replicate sweep]. rewrite H0.
  rewrite (sweep_same _ _ _ _ _ _ H1).
  apply (sweeps_invariant (connect_step hk drv)
           (λ w, issued w = 1) (λ pc, pc ≠ PcStart)).
  - intros w pc w' pc' Hw Hpc Hstep.
    destruct (connect_step_no_issue _ _ _ _ _ _ Hpc Hstep) as [Hiss Hpc'].
    split; [lia|done].
  - done.
  - simpl. constructor; [done|]. by apply Forall_replicate.
Qed.








(** After a failure the rejection handler of a call that waited for the
    failed attempt clears whatever the manager holds, also the promise of an
    attempt that was started since: the next call then starts a third, and
    two attempts are in flight at once. *)
Example connect_stale_handler :
  let c := {| this := 3; _url := Some "mongodb://localhost/app"; _config := None;
              _connection := None; _connectPromise := None |} in
  let drv := mkDriver (λ _, Returned (Resolved ())) in
  (λ s : System, (s.2, promises s.1, issued s.1))
    <$> play default_hooks drv
          [MvCall; MvRun 0; MvCall; MvRun 1; MvSettle 0 (Rejected "ECONNREFUSED");
           MvRun 0; MvRun 0; MvCall; MvRun 2; MvRun 1; MvRun 1; MvCall; MvRun 3]
          (fresh_world c, [])
  = Some ([PcDone (Rejected "ECONNREFUSED"); PcDone (Rejected "ECONNREFUSED");
           PcAwait 1; PcAwait 2],
          [Some (Rejected "ECONNREFUSED"); None; None], 3).
Proof. vm_compute. reflexivity. Qed.

Example connect_three_calls :
  let c := {| this := 3; _url := Some "mongodb://localhost/app"; _config := None;
              _connection := None; _connectPromise := None |} in
  let s := connect_all default_hooks (mkDriver (λ _, Returned (Resolved ()))) (Resolved 9) 3
             (fresh_world c) in
  trace s.1
  = [EvConnect "mongodb://localhost/app" 0;
     EvOnConnecting 9; EvOnConnecting 9; EvOnConnecting 9;
     EvConnection (Some 9); EvOnConnected;
     EvConnection (Some 9); EvOnConnected;
     EvConnection (Some 9); EvOnConnected]
  ∧ _connection (core s.1) = Some 9
  ∧ _connectPromise (core s.1) = None.
Proof. done. Qed.

(** *** Failure *)

(** The rejection handler when the release returns, or there is nothing to
    release. *)
Lemma handler_cleans_up hk drv w e :
  (∀ conn, _connection (core w) = Some conn → ∃ r, close_result drv conn = Returned r) →
  ∃ w',
    connect_step hk drv w (PcFailed e) = Some (w', PcDone (Rejected e))
    ∧ idle (core w')
    ∧ trace w' = trace w
                 ++ match _connection (core w) with
                    | Some conn => [EvRelease conn]
                    | None => []
                    end
                 ++ [EvConnection None].
Proof.
  destruct w as [[self u cfg [conn|] cp] ps tr]; simpl; intros Hret.
  - destruct (Hret conn eq_refl) as [r Hr]. unfold db_close. simpl. rewrite Hr.
    eexists. split; [reflexivity|]. split; [done|]. simpl. by rewrite <- app_assoc.
  - eexists. split; [reflexivity|]. done.
Qed.

(** The rejection handler when the release throws. *)
Lemma handler_release_throws hk drv w e conn e' :
  _connection (core w) = Some conn →
  close_result drv conn = Thrown e' →
  connect_step hk drv w (PcFailed e)
  = Some (emit (EvRelease conn) w, PcDone (Rejected e')).
Proof.
  destruct w as [[self u cfg c cp] ps tr]; simpl. intros -> Hthrow.
  unfold db_close. simpl. by rewrite Hthrow.
Qed.

Lemma settled_lookup_new (ps : list (option (outcome Db))) o :
  ((λ x, match x with None => Some o | Some _ => x end) <$> (ps ++ [None]))
    !! length ps = Some (Some o).
Proof.
  rewrite fmap_app, lookup_app_r by (by rewrite length_fmap).
  by rewrite length_fmap, Nat.sub_diag.
Qed.

Lemma fresh_attempt hk drv w target :
  idle (core w) →
  url (core w) = Resolved target →
  ∃ w',
    connect_step hk drv w PcStart = Some (w', PcAwait (length (promises w)))
    ∧ trace w' = trace w ++ [EvConnect target (length (promises w))]
    ∧ _connectPromise (core w') = Some (length (promises w))
    ∧ promises w' !! length (promises w) = Some None.
Proof.
  destruct w as [[self u cfg conn cp] ps tr]. intros [Hc Hp] Hurl.
  simpl in *. subst. rewrite Hurl. eexists. split; [reflexivity|]. simpl.
  repeat split. by rewrite lookup_app_r, Nat.sub_diag by lia.
Qed.

(** A call alone, on an idle manager whose target is a literal string, to
    which the driver answers with a connection. *)
Lemma connect_answered hk drv self (a : Ascii.ascii) (u : string) cfg ps tr db :
  let w := {| core := {| this := self; _url := Some (String a u); _config := cfg;
                         _connection := None; _connectPromise := None |};
              promises := ps; trace := tr |} in
  connect hk drv (Resolved db) w
  = (let '(w, ts) :=
       sweeps (connect_step hk drv) 3
         ({| core := {| this := self; _url := Some (String a u); _config := cfg;
                        _connection := None; _connectPromise := Some (length ps) |};
             promises := (λ x, match x with None => Some (Resolved db) | Some _ => x end)
                           <$> (ps ++ [None]);
             trace := tr ++ [EvConnect (String a u) (length ps)] |}, [PcDb db]) in
     (w, match ts with [PcDone r] => Some r | _ => None end)).
Proof.
  intros w. unfold connect, connect_all, w. cbn [replicate sweep].
  unfold connect_step at 1. simpl.
  cbn [sweeps sweep fst snd settle_all core promises trace connect_step
       mongoConnectAsyc set_connectPromise emit _connection _connectPromise].
  by rewrite settled_lookup_new.
Qed.

(** C5 (the code at the failing input).  A call alone on an idle manager, to
    which the driver answers with the connection [db].  When [onConnecting]
    rejects, the call is rejected with the error of the hook and the manager
    is cleared, but [db] is never released: the handler releases what
    [_connection] holds, and [db] was not stored.  When it is [onConnected]
    that rejects, [db] has been stored, and the handler releases it, clears
    the manager and rejects with the error of the hook, if the release
    returns; if the release throws, the handler ends there: the call is
    rejected with what the release threw, and the manager keeps [db] as its
    connection. *)
Theorem connect_failure_leaves_handle_open (oc : list Event → option (outcome unit))
    (close_db : Db → completion (outcome unit))
    (self : CoreRef) (a : Ascii.ascii) (u : string) (cfg : option Configuration)
    (ps : list (option (outcome Db))) (tr : list Event) (db : Db) (e e' : Err)
    (r : outcome unit) :
  let w := {| core := {| this := self; _url := Some (String a u); _config := cfg;
                         _connection := None; _connectPromise := None |};
              promises := ps; trace := tr |} in
  let rejecting := {| onConnecting := λ _ _, Some (Rejected e); onConnected := oc |} in
  let late := {| onConnecting := λ _ d, Some (Resolved d);
                 onConnected := λ _, Some (Rejected e) |} in
  (∃ w',
     connect rejecting (mkDriver close_db) (Resolved db) w = (w', Some (Rejected e))
     ∧ trace w' = tr ++ [EvConnect (String a u) (length ps); EvOnConnecting db;
                         EvConnection None]
     ∧ ¬ (EvRelease db ∈ drop (length tr) (trace w'))
     ∧ idle (core w'))
  ∧ (∃ w',
       connect late (mkDriver (λ _, Returned r)) (Resolved db) w
       = (w', Some (Rejected e))
       ∧ trace w' = tr ++ [EvConnect (String a u) (length ps); EvOnConnecting db;
                           EvConnection (Some db); EvOnConnected;
                           EvRelease db; EvConnection None]
       ∧ idle (core w'))
  ∧ (∃ w',
       connect late (mkDriver (λ _, Thrown e')) (Resolved db) w
       = (w', Some (Rejected e'))
       ∧ trace w' = tr ++ [EvConnect (String a u) (length ps); EvOnConnecting db;
                           EvConnection (Some db); EvOnConnected; EvRelease db]
       ∧ connection w' = Resolved db).
Proof.
  intros w rejecting late. split; [|split].
  - unfold w. rewrite connect_answered. simpl.
    eexists. split; [reflexivity|]. simpl.
    split; [by rewrite <- !app_assoc|]. split; [|done].
    rewrite <- !app_assoc. rewrite drop_app_length. simpl.
    intros Hin. repeat (apply elem_of_cons in Hin as [[=]|Hin]).
    by apply elem_of_nil in Hin.
  - unfold w. rewrite connect_answered. simpl.
    eexists. split; [reflexivity|]. simpl. split; [|done].
    by rewrite <- !app_assoc.
  - unfold w. rewrite connect_answered. simpl.
    eexists. split; [reflexivity|]. simpl. split; [|done].
    by rewrite <- !app_assoc.
Qed.

(** What the handler releases is what [_connection] holds.  A handle the
    driver returned and [onConnecting] rejected was never stored: the trace
    of such a call has no release. *)
Example connect_rejected_by_onConnecting :
  let hk := {| onConnecting := λ _ _, Some (Rejected "auth failed");
               onConnected := λ _, Some (Resolved ()) |} in
  let w := fresh_world {| this := 1; _url := Some "mongodb://h"; _config := None;
                          _connection := None; _connectPromise := None |} in
  connect hk (mkDriver (λ _, Returned (Resolved ()))) (Resolved 4) w
  = ({| core := core w; promises := [Some (Resolved 4)];
        trace := [EvConnect "mongodb://h" 0; EvOnConnecting 4; EvConnection None] |},
     Some (Rejected "auth failed")).
Proof. reflexivity. Qed.

(** *** A call on an established connection *)

(** C4 (the code at the failing input).  On a manager that holds a
    connection [db], a call of [connect] issues no [connect] of the driver
    and, with the hooks of the base class, resolves with the manager; but its
    first callback hands [db] to the same chain a new attempt runs through,
    so that [onConnecting] is called again with [db], [_connection] is
    assigned again, and [onConnected] is called again. *)
Theorem connect_established_reruns_hooks (hk : Hooks) (drv : Driver)
    (self : CoreRef) (u : option string) (cfg : option Configuration)
    (cp : option PromiseId) (ps : list (option (outcome Db))) (tr : list Event)
    (db : Db) :
  let w := {| core := {| this := self; _url := u; _config := cfg;
                         _connection := Some db; _connectPromise := cp |};
              promises := ps; trace := tr |} in
  connect_step hk drv w PcStart = Some (w, PcDb db)
  ∧ (∃ pc', connect_step hk drv w (PcDb db) = Some (emit (EvOnConnecting db) w, pc'))
  ∧ (∀ o, ∃ w',
       connect default_hooks drv o w = (w', Some (Resolved self))
       ∧ trace w' = tr ++ [EvOnConnecting db; EvConnection (Some db); EvOnConnected]
       ∧ issued w' = issued w
       ∧ _connection (core w') = Some db).
Proof.
  intros w. split; [done|]. split.
  - simpl. destruct (onConnecting hk tr db) as [[]|]; eauto.
  - intros o. eexists. split; [reflexivity|]. simpl.
    split; [by rewrite <- !app_assoc|]. split; [|done].
    unfold issued. simpl. rewrite !filter_app, !length_app. simpl. lia.
Qed.

Example connect_twice_runs_hooks_twice :
  let drv := mkDriver (λ _, Returned (Resolved ())) in
  let w := fresh_world {| this := 1; _url := Some "mongodb://h"; _config := None;
                          _connection := None; _connectPromise := None |} in
  let w1 := (connect default_hooks drv (Resolved 4) w).1 in
  let w2 := (connect default_hooks drv (Resolved 5) w1).1 in
  trace w1 = [EvConnect "mongodb://h" 0; EvOnConnecting 4;
              EvConnection (Some 4); EvOnConnected]
  ∧ trace w2 = trace w1 ++ [EvOnConnecting 4; EvConnection (Some 4); EvOnConnected].
Proof. done. Qed.

(** ** Copies *)

Lemma read_props_mono (f g : value → option tree) (o : object) ts :
  (∀ v t, f v = Some t → g v = Some t) →
  read_props f o = Some ts → read_props g o = Some ts.
Proof.
  intros Hfg. revert ts. induction o as [|[k v] o IH]; intros ts; simpl; [done|].
  destruct (f v) as [t|] eqn:Hv; [|done]. rewrite (Hfg _ _ Hv).
  destruct (read_props f o) as [ts'|]; [|done].
  by rewrite (IH ts' eq_refl).
Qed.

(** What a value denotes depends only on the objects the reading visits. *)
Lemma deep_read_ext n (h h' : Heap) v t :
  (∀ a o, h !! a = Some o → h' !! a = Some o) →
  deep_read n h v = Some t → deep_read n h' v = Some t.
Proof.
  intros Hext. revert v t.
  induction n as [|n IH]; intros v t; destruct v; cbn [deep_read]; try done.
  destruct (h !! a) as [o|] eqn:Ha; [|done]. rewrite (Hext _ _ Ha).
  destruct (read_props (deep_read n h) o) as [ts|] eqn:Hts; [|done].
  by rewrite (read_props_mono _ _ _ _ IH Hts).
Qed.







Example cloneDeep_nested :
  let h := [[("_id", VNum 1); ("tags", VRef 1)]; [("0", VStr "a")]] in
  Lodash.cloneDeep h (VRef 0)
  = Some (h ++ [[("_id", VNum 1); ("tags", VRef 3)]; [("0", VStr "a")]], VRef 2).
Proof. reflexivity. Qed.

(** ** The model cache *)

(** The in-process map echoes. *)
Global Instance MemoryCache_echo : EchoCache (gmap string value).
Proof.
  split; intros k v m; simpl; [done|]. by rewrite lookup_insert_eq.
Qed.

(** C9.  With a director, over a cache that echoes (as the in-process map
    does), a document the director marks cacheable that is stored with [set]
    comes back from [get] for conditions the director marks cacheable and
    keys like the document: [get] resolves with the very value that was
    stored, in a memory that has not changed, hence with a value logically
    equal to the document.  Without a director, over any cache and whatever
    it holds, [set] resolves with its argument and [get] with [null], the
    cache of the core being neither read nor written. *)
Theorem modelcache_round_trip {T S : Type} `{Cache S}
    (m : Model T) (w : MWorld S) :
  (EchoCache S →
   ∀ d doc conds s,
     cacheDirector m = Some d →
     cache w = Some s →
     valid d (heap w) doc = true →
     validQuery d (heap w) conds = true →
     buildKey d (heap w) doc = buildQueryKey d (heap w) conds →
     (ModelCache.set m doc w).2 = Resolved doc
     ∧ (ModelCache.get m conds (ModelCache.set m doc w).1).2 = Resolved doc
     ∧ heap (ModelCache.get m conds (ModelCache.set m doc w).1).1 = heap w
     ∧ tree_of (heap (ModelCache.get m conds (ModelCache.set m doc w).1).1) doc
       = tree_of (heap w) doc)
  ∧ (cacheDirector m = None →
     ∀ v,
       (ModelCache.set m v w).2 = Resolved v
       ∧ cache (ModelCache.set m v w).1 = cache w
       ∧ heap (ModelCache.set m v w).1 = heap w
       ∧ ModelCache.get m v w = (w, Resolved VNull)).
Proof.
  split.
  - intros Hecho d doc conds s Hd Hs Hvalid Hquery Hkey.
    unfold ModelCache.set. rewrite Hd. simpl. rewrite Hvalid, Hs. simpl.
    pose proof (set_echo (buildKey d (heap w) doc) doc s) as Hset.
    pose proof (get_set (buildKey d (heap w) doc) doc s) as Hget.
    destruct (cache_set (buildKey d (heap w) doc) doc s) as [s' r] eqn:Hcs.
    simpl in *. split; [done|].
    unfold ModelCache.get. rewrite Hd. simpl. rewrite Hquery. simpl.
    rewrite <- Hkey.
    destruct (cache_get (buildKey d (heap w) doc) s') as [s'' r'] eqn:Hcg.
    simpl in *. done.
  - intros Hd v. unfold ModelCache.set, ModelCache.get. rewrite Hd. done.
Qed.

Lemma modelcache_round_trip_witness :
  let hs : ModelHooks unit :=
    {| creating := None; retrieved := None; ready := None; saving := None |} in
  let m : Model unit :=
    {| hooks := hs; cacheDirector := Some id_director;
       validate := λ _ _, mkValidation false ""; is_Instance := λ _, true |} in
  let m0 : Model unit :=
    {| hooks := hs; cacheDirector := None;
       validate := λ _ _, mkValidation false ""; is_Instance := λ _, true |} in
  let w : MWorld (gmap string value) :=
    {| heap := [[("_id", VNum 7); ("name", VStr "x")]; [("_id", VNum 7)]];
       cache := Some ∅; calls := [] |} in
  (ModelCache.set m (VRef 0) w).2 = Resolved (VRef 0)
  ∧ (ModelCache.get m (VRef 1) (ModelCache.set m (VRef 0) w).1).2 = Resolved (VRef 0)
  ∧ (ModelCache.set m0 (VRef 0) w).2 = Resolved (VRef 0)
  ∧ ModelCache.get m0 (VRef 1) w = (w, Resolved VNull).
Proof.
  intros hs m m0 w.
  pose proof (proj1 (modelcache_round_trip m w) MemoryCache_echo
                id_director (VRef 0) (VRef 1) ∅
                eq_refl eq_refl eq_refl eq_refl eq_refl) as (H1 & H2 & _).
  pose proof (proj2 (modelcache_round_trip m0 w) eq_refl (VRef 0)) as (H3 & _).
  pose proof (proj2 (modelcache_round_trip m0 w) eq_refl (VRef 1)) as (_ & _ & _ & H4).
  exact (conj H1 (conj H2 (conj H3 H4))).
Defined.

(** ** A document is received *)

Section Received.
Context {T S : Type} `{Cache S}.
Implicit Types (m : Model T) (w : MWorld S) (o : QueryOptions).

Lemma model_cache_writes_app (cs cs' : list Call) :
model_cache_writes (cs ++ cs') = model_cache_writes cs ++ model_cache_writes cs'.
Proof. apply omap_app. Qed.

Lemma cache_writes_app (cs cs' : list Call) :
cache_writes (cs ++ cs') = cache_writes cs ++ cache_writes cs'.
Proof. apply omap_app. Qed.

Lemma wrapper_calls_app (cs cs' : list Call) :
wrapper_calls (cs ++ cs') = wrapper_calls cs ++ wrapper_calls cs'.
Proof. apply omap_app. Qed.

(** A hook writes nothing to the cache. *)
Lemma received_hook_quiet m target w :
∃ cs, calls (ModelHandlers.received_hook m target w).1 = calls w ++ cs
    ∧ model_cache_writes cs = [] ∧ cache_writes cs = [] ∧ wrapper_calls cs = []
    ∧ cache (ModelHandlers.received_hook m target w).1 = cache w.
Proof.
unfold ModelHandlers.received_hook, run_hook, ModelHandlers.resolve.
destruct (retrieved (hooks m)) as [hk|]; simpl.
- destruct (hk (heap w) target). simpl. by eexists.
- exists []. by rewrite app_nil_r.
Qed.

(** The wrapper is called with [isNew] false and [isPartial] set by the
presence of [fields]; nothing is written to the cache. *)
Lemma received_wrap_calls m target wrapper o w :
∃ cs, calls (ModelHandlers.received_wrap m target wrapper o w).1 = calls w ++ cs
    ∧ model_cache_writes cs = [] ∧ cache_writes cs = []
    ∧ wrapper_calls cs = [(target, false, bool_decide (is_Some (opt_fields o)))]
    ∧ cache (ModelHandlers.received_wrap m target wrapper o w).1 = cache w
    ∧ (∀ x, (ModelHandlers.received_wrap m target wrapper o w).2 = Resolved x →
         x = wrapper target false (bool_decide (is_Some (opt_fields o)))).
Proof.
unfold ModelHandlers.received_wrap, run_hook.
destruct (ready (hooks m)) as [hk|]; simpl.
- destruct (is_Instance m _); simpl.
+ destruct (hk _ _) as [h r]. simpl. eexists. split; [by rewrite <- app_assoc|].
  repeat split; try done. intros x. destruct r; by intros [= <-].
+ eexists. repeat split; try done. by intros x [= <-].
- eexists. repeat split; try done. by intros x [= <-].
Qed.




End Received.


Lemma documentReceived_after_hook {T S : Type} `{Cache S}
    (m : Model T) (conditions target : value) (wrapper : value → bool → bool → T)
    (o : QueryOptions) (w w1 : MWorld S) :
  ModelHandlers.received_hook m target w = (w1, Resolved ()) →
  ModelHandlers.documentReceived m conditions target wrapper o w
  = match ModelHandlers.received_cache m target (ModelHandlers.defaults o) w1 with
    | (w2, Resolved _) =>
        ModelHandlers.received_wrap m target wrapper (ModelHandlers.defaults o) w2
    | (w2, Rejected e) => (w2, Rejected e)
    end.
Proof.
  intros Hhook.
  unfold ModelHandlers.documentReceived, ModelHandlers.then_, ModelHandlers.resolve.
  rewrite Hhook.
  destruct (ModelHandlers.received_cache _ _ _ _) as [w2 [[]|e]]; done.
Qed.




(** A shallow copy would not do: the write that the cached copy survives
    changes what a copy sharing the nested array denotes. *)
Example shallow_copy_is_not_isolated :
  let h := heap one_document ++ [[("_id", VNum 7); ("tags", VRef 1)]] in
  tree_of h (VRef 2) = Some (TObj [("_id", TNum 7); ("tags", TObj [("0", TStr "a")])])
  ∧ tree_of (write_prop 1 "0" (VStr "b") h) (VRef 2)
    = Some (TObj [("_id", TNum 7); ("tags", TObj [("0", TStr "b")])]).
Proof. done. Qed.



(** ** Documents are created *)

Section CreatingAll.
Context {T S : Type} `{Cache S}.
Implicit Types (m : Model T) (w : MWorld S).

Lemma all_step_eq m (r : option Err) w b :
ModelHandlers.all_step m (w, r) b
= match ModelHandlers.creating_step m w b with
  | Some (w', b') =>
      Some ((w', match r, b' with
                 | None, ModelHandlers.BDone (Rejected e) => Some e
                 | r, _ => r
                 end), b')
  | None => None
  end.
Proof.
unfold ModelHandlers.all_step. cbn [fst snd].
destruct (ModelHandlers.creating_step m w b) as [[w' b']|]; [|done].
by destruct r, b' as [| |[]].
Qed.

(** What [Bluebird.all] sees does not change what the branches do. *)
Lemma sweep_all_forget m (r : option Err) bs w :
(sweep (ModelHandlers.all_step m) (w, r) bs).1.1
= (sweep (ModelHandlers.creating_step m) w bs).1
∧ (sweep (ModelHandlers.all_step m) (w, r) bs).2
  = (sweep (ModelHandlers.creating_step m) w bs).2.
Proof.
revert w r. induction bs as [|b bs IH]; intros w r; [done|].
cbn [sweep]. rewrite all_step_eq.
destruct (ModelHandlers.creating_step m w b) as [[w' b']|].
- match goal with |- context [sweep (ModelHandlers.all_step m) (w', ?r') bs] =>
    specialize (IH w' r');
    destruct (sweep (ModelHandlers.all_step m) (w', r') bs) as [[w2 r2] bs2] end.
  destruct (sweep (ModelHandlers.creating_step m) w' bs) as [w3 bs3].
  simpl in *. destruct IH as [-> ->]. done.
- specialize (IH w r).
  destruct (sweep (ModelHandlers.all_step m) (w, r) bs) as [[w2 r2] bs2].
  destruct (sweep (ModelHandlers.creating_step m) w bs) as [w3 bs3].
  simpl in *. destruct IH as [-> ->]. done.
Qed.

(** In a round of branches none of which had settled, the rejection that
    comes first in time is the first by position. *)
Lemma sweep_all_rejection m (r : option Err) bs w :
Forall (λ b, ModelHandlers.settled b = false) bs →
(sweep (ModelHandlers.all_step m) (w, r) bs).1.2
= match r with
  | Some e => Some e
  | None => ModelHandlers.first_rejection (sweep (ModelHandlers.creating_step m) w bs).2
  end.
Proof.
intros Hbs. revert w r. induction Hbs as [|b bs Hb _ IH]; intros w r.
{ by destruct r. }
cbn [sweep]. rewrite all_step_eq.
assert (∃ w' b', ModelHandlers.creating_step m w b = Some (w', b')) as (w' & b' & Hstep).
{ destruct b as [d|d|o]; [| |done]; simpl.
  - destruct (retrieved (hooks m)); [|eauto].
    destruct (creating (hooks m)) as [hk|]; [|eauto].
    unfold run_hook. destruct (hk (heap w) d). eauto.
  - eauto. }
rewrite Hstep.
match goal with |- context [sweep (ModelHandlers.all_step m) (w', ?r') bs] =>
  specialize (IH w' r');
  destruct (sweep (ModelHandlers.all_step m) (w', r') bs) as [[w2 r2] bs2] end.
destruct (sweep (ModelHandlers.creating_step m) w' bs) as [w3 bs3].
simpl in *. rewrite IH. unfold ModelHandlers.first_rejection.
destruct r as [e|]; [done|]. by destruct b' as [d|d|[v|e]].
Qed.

Lemma creatingDocuments_fst m docs w :
(ModelHandlers.creatingDocuments m docs w).1
= sweep (ModelHandlers.creating_step m)
    (sweep (ModelHandlers.creating_step m) w (ModelHandlers.BStart <$> docs)).1
    (sweep (ModelHandlers.creating_step m) w (ModelHandlers.BStart <$> docs)).2.
Proof.
unfold ModelHandlers.creatingDocuments.
destruct (sweep_all_forget m None (ModelHandlers.BStart <$> docs) w) as [H1 H2].
destruct (sweep (ModelHandlers.all_step m) (w, None) (ModelHandlers.BStart <$> docs))
  as [[w1 r1] bs1]. simpl in H1, H2. rewrite <- H1, <- H2.
destruct (sweep_all_forget m r1 bs1 w1) as [H3 H4].
destruct (sweep (ModelHandlers.all_step m) (w1, r1) bs1) as [[w2 r2] bs2].
simpl in H3, H4 |- *. rewrite H3, H4.
by destruct (sweep (ModelHandlers.creating_step m) w1 bs1).
Qed.

End CreatingAll.

Section Creating.
Context {T S : Type} `{Cache S}.
Implicit Types (m : Model T) (w : MWorld S) (docs ds : list value).

(** What is assumed of a batch, for some property [P] of the world that the
callbacks keep: while [P] holds the first callback of a branch resolves,
and the validator's verdict on a document of the batch is [verdict]. *)
Context (m : Model T) (P : MWorld S → Prop) (verdict : value → Validation)
    (docs : list value).
Hypothesis P_kept : ∀ w b w' b',
P w → ModelHandlers.creating_step m w b = Some (w', b') → P w'.
Hypothesis first_resolves : ∀ w d,
P w → d ∈ docs →
∃ w', ModelHandlers.creating_step m w (ModelHandlers.BStart d)
    = Some (w', ModelHandlers.BHooked d).
Hypothesis verdict_stable : ∀ w d,
P w → d ∈ docs → validate m (heap w) d = verdict d.

Lemma sweep_first_round ds w :
ds ⊆ docs → P w →
P (sweep (ModelHandlers.creating_step m) w (ModelHandlers.BStart <$> ds)).1
∧ (sweep (ModelHandlers.creating_step m) w (ModelHandlers.BStart <$> ds)).2
= ModelHandlers.BHooked <$> ds.
Proof.
revert w. induction ds as [|d ds IH]; intros w Hsub Hw; [done|].
cbn [fmap list_fmap sweep].
destruct (first_resolves w d Hw) as [w' Hw']; [set_solver|]. rewrite Hw'.
destruct (IH w') as [HP Hbs]; [set_solver|by eapply P_kept|].
destruct (sweep _ w' _) as [w'' bs]. simpl in *. by rewrite Hbs.
Qed.

Lemma sweep_second_round ds w :
ds ⊆ docs → P w →
(sweep (ModelHandlers.creating_step m) w (ModelHandlers.BHooked <$> ds)).2
= (λ d, ModelHandlers.BDone (ModelHandlers.validated (verdict d) d)) <$> ds.
Proof.
revert w. induction ds as [|d ds IH]; intros w Hsub Hw; [done|].
cbn [fmap list_fmap sweep ModelHandlers.creating_step].
specialize (IH (call (CallValidate d) w)).
destruct (sweep _ (call (CallValidate d) w) _) as [w'' bs]. simpl in *.
rewrite IH, verdict_stable; [done|done|set_solver|set_solver|].
by eapply (P_kept w (ModelHandlers.BHooked d)).
Qed.

(** In every schedule, the branch of a document is where its own callbacks
have taken it. *)
Lemma creating_branches_invariant w w' bs :
P w →
rtc (task_step (ModelHandlers.creating_step m))
  (w, ModelHandlers.BStart <$> docs) (w', bs) →
P w'
∧ Forall2 (λ d b, b = ModelHandlers.BStart d ∨ b = ModelHandlers.BHooked d
                ∨ b = ModelHandlers.BDone (ModelHandlers.validated (verdict d) d))
        docs bs.
Proof.
intros Hw Hrun.
remember (w', bs) as s' eqn:Hs'. revert w' bs Hs'. revert s' Hrun.
apply (rtc_ind_r (λ s', ∀ w' bs, s' = (w', bs) → P w' ∧ Forall2 _ docs bs)).
- intros w' bs [= <- <-]. split; [done|].
apply Forall2_fmap_r, Forall_Forall2_diag.
apply Forall_forall. intros; by left.
- intros s1 s2 _ Hstep IH w' bs ->.
inversion Hstep as [w1 ts i b w2 b' Hi Hb]; subst.
destruct (IH w1 ts eq_refl) as [Hw1 Hrel].
split; [by eapply P_kept|].
destruct (Forall2_lookup_r _ _ _ _ _ Hrel Hi) as (d & Hd & Hdb).
rewrite <- (list_insert_id docs i d Hd).
apply Forall2_insert; [done|].
assert (d ∈ docs) as Hin by (apply list_elem_of_lookup; eauto).
destruct Hdb as [-> | [-> | ->]].
+ destruct (first_resolves w1 d Hw1 Hin) as [w3 Hw3]. rewrite Hw3 in Hb.
  simplify_eq. by right; left.
+ simpl in Hb. simplify_eq. rewrite verdict_stable by done. by right; right.
+ done.
Qed.

(** The two rounds of [creatingDocuments]. *)
Lemma creatingDocuments_rounds w :
P w →
(ModelHandlers.creatingDocuments m docs w).1.2
= (λ d, ModelHandlers.BDone (ModelHandlers.validated (verdict d) d)) <$> docs
∧ (ModelHandlers.creatingDocuments m docs w).2
= match ModelHandlers.first_rejection
          ((λ d, ModelHandlers.BDone (ModelHandlers.validated (verdict d) d))
             <$> docs) with
  | Some e => Rejected e
  | None => Resolved (ModelHandlers.resolved_values
              ((λ d, ModelHandlers.BDone
                       (ModelHandlers.validated (verdict d) d)) <$> docs))
  end.
Proof.
intros Hw.
assert (ModelHandlers.first_rejection (ModelHandlers.BHooked <$> docs) = None) as Hnone.
{ unfold ModelHandlers.first_rejection. clear. by induction docs. }
destruct (sweep_first_round docs w) as [HP1 H1]; [done|done|].
pose proof (creatingDocuments_fst m docs w) as Hfst.
unfold ModelHandlers.creatingDocuments in *.
destruct (sweep_all_forget m None (ModelHandlers.BStart <$> docs) w) as [Ha1 Hb1].
pose proof (sweep_all_rejection m None (ModelHandlers.BStart <$> docs) w) as Hr1.
destruct (sweep (ModelHandlers.all_step m) (w, None) (ModelHandlers.BStart <$> docs))
  as [[w1 r1] bs1]. simpl in Ha1, Hb1, Hr1.
rewrite Hr1, H1, Hnone by (apply Forall_fmap, Forall_forall; done).
rewrite H1 in Hb1. subst bs1. rewrite <- Ha1 in HP1.
pose proof (sweep_second_round docs w1 ltac:(done) HP1) as H2.
destruct (sweep_all_forget m None (ModelHandlers.BHooked <$> docs) w1) as [Ha2 Hb2].
pose proof (sweep_all_rejection m None (ModelHandlers.BHooked <$> docs) w1) as Hr2.
destruct (sweep (ModelHandlers.all_step m) (w1, None) (ModelHandlers.BHooked <$> docs))
  as [[w2 r2] bs2]. simpl in Ha2, Hb2, Hr2 |- *.
rewrite Hr2, <- Hb2 by (apply Forall_fmap, Forall_forall; done).
rewrite H2 in Hb2. subst bs2. done.
Qed.

End Creating.

(** C2.  Take a batch and a property of the world that its callbacks keep,
    under which the first callback of every branch resolves and the
    validator's verdict on each document of the batch is settled.  Then in
    every schedule each branch is where its own document has taken it, and
    settles with the verdict on that document only: it resolves with the
    document if the document passes, it is rejected with the validation's
    error if it fails.  In particular the two rounds of [creatingDocuments]
    settle every branch this way, and of three documents of which the second
    alone fails, the first and the third branch resolve and the second is
    rejected with the validation's error (which is also what [Bluebird.all]
    rejects the batch with). *)
Theorem creating_branches_independent {T S : Type} `{Cache S}
    (m : Model T) (P : MWorld S → Prop) (verdict : value → Validation)
    (docs : list value) (w : MWorld S) :
  (∀ (w0 : MWorld S) b w' b',
     P w0 → ModelHandlers.creating_step m w0 b = Some (w', b') → P w') →
  (∀ (w0 : MWorld S) d,
     P w0 → d ∈ docs →
     ∃ w', ModelHandlers.creating_step m w0 (ModelHandlers.BStart d)
           = Some (w', ModelHandlers.BHooked d)) →
  (∀ (w0 : MWorld S) d, P w0 → d ∈ docs → validate m (heap w0) d = verdict d) →
  P w →
  (∀ w' bs,
     rtc (task_step (ModelHandlers.creating_step m))
         (w, ModelHandlers.BStart <$> docs) (w', bs) →
     Forall2 (λ d b, b = ModelHandlers.BStart d ∨ b = ModelHandlers.BHooked d
                     ∨ b = ModelHandlers.BDone (ModelHandlers.validated (verdict d) d))
             docs bs)
  ∧ (ModelHandlers.creatingDocuments m docs w).1.2
    = (λ d, ModelHandlers.BDone (ModelHandlers.validated (verdict d) d)) <$> docs
  ∧ (∀ d1 d2 d3 e,
       docs = [d1; d2; d3] →
       validation_failed (verdict d1) = false →
       verdict d2 = mkValidation true e →
       validation_failed (verdict d3) = false →
       (ModelHandlers.creatingDocuments m docs w).1.2
       = [ModelHandlers.BDone (Resolved d1); ModelHandlers.BDone (Rejected e);
          ModelHandlers.BDone (Resolved d3)]
       ∧ (ModelHandlers.creatingDocuments m docs w).2 = Rejected e).
Proof.
  intros Hkept Hstart Hval Hw.
  destruct (creatingDocuments_rounds m P verdict docs Hkept Hstart Hval w Hw)
    as [Hbranches Hall].
  split.
  { intros w' bs Hrun.
    by destruct (creating_branches_invariant m P verdict docs Hkept Hstart Hval
                   w w' bs Hw Hrun). }
  split; [done|].
  intros d1 d2 d3 e -> Hd1 Hd2 Hd3. rewrite Hbranches, Hall.
  cbn [fmap list_fmap]. unfold ModelHandlers.validated.
  rewrite Hd1, Hd2, Hd3. done.
Qed.

Lemma creating_branches_independent_witness :
  let m : Model unit :=
    {| hooks := {| creating := None; retrieved := None; ready := None; saving := None |};
       cacheDirector := None;
       validate := λ h d, match prop_of h d "name" with
                          | VStr _ => mkValidation false ""
                          | _ => mkValidation true "name: expected a string"
                          end;
       is_Instance := λ _, true |} in
  let w : MWorld unit :=
    {| heap := [[("name", VStr "a")]; [("name", VNum 3)]; [("name", VStr "c")]];
       cache := Some (); calls := [] |} in
  (ModelHandlers.creatingDocuments m [VRef 0; VRef 1; VRef 2] w).1.2
  = [ModelHandlers.BDone (Resolved (VRef 0));
     ModelHandlers.BDone (Rejected "name: expected a string");
     ModelHandlers.BDone (Resolved (VRef 2))]
  ∧ (ModelHandlers.creatingDocuments m [VRef 0; VRef 1; VRef 2] w).2
    = Rejected "name: expected a string".
Proof.
  intros m w.
  assert (∀ (w0 : MWorld unit) b w' b',
            heap w0 = heap w →
            ModelHandlers.creating_step m w0 b = Some (w', b') →
            heap w' = heap w) as Hkept.
  { intros w0 [d|d|r] w' b' Hw0 Hstep; simpl in Hstep;
      inversion Hstep; subst; exact Hw0. }
  assert (∀ (w0 : MWorld unit) d,
            heap w0 = heap w → d ∈ [VRef 0; VRef 1; VRef 2] →
            ∃ w', ModelHandlers.creating_step m w0 (ModelHandlers.BStart d)
                  = Some (w', ModelHandlers.BHooked d)) as Hstart.
  { intros w0 d _ _. exists w0. reflexivity. }
  assert (∀ (w0 : MWorld unit) d,
            heap w0 = heap w → d ∈ [VRef 0; VRef 1; VRef 2] →
            validate m (heap w0) d = validate m (heap w) d) as Hval.
  { intros w0 d Hw0 _. rewrite Hw0. reflexivity. }
  exact (proj2 (proj2 (creating_branches_independent m (λ w0, heap w0 = heap w)
                         (validate m (heap w)) [VRef 0; VRef 1; VRef 2] w
                         Hkept Hstart Hval eq_refl))
           (VRef 0) (VRef 1) (VRef 2) "name: expected a string"
           eq_refl eq_refl eq_refl eq_refl).
Defined.

Section CreatingHook.
Context {T S : Type} `{Cache S}.
Implicit Types (m : Model T) (w : MWorld S) (docs : list value).

Lemma sweep_unhooked m docs w :
retrieved (hooks m) = None →
sweep (ModelHandlers.creating_step m) w (ModelHandlers.BStart <$> docs)
= (w, ModelHandlers.BHooked <$> docs).
Proof.
intros Hrt.
assert (∀ d, ModelHandlers.creating_step m w (ModelHandlers.BStart d)
           = Some (w, ModelHandlers.BHooked d)) as Hstep.
{ intros d. simpl. by rewrite Hrt. }
induction docs as [|d docs IH]; [done|].
cbn [fmap list_fmap sweep]. rewrite Hstep.
by rewrite IH.
Qed.

Lemma sweep_validates m docs w :
sweep (ModelHandlers.creating_step m) w (ModelHandlers.BHooked <$> docs)
= ({| heap := heap w; cache := cache w;
    calls := calls w ++ (CallValidate <$> docs) |},
 (λ d, ModelHandlers.BDone (ModelHandlers.validated (validate m (heap w) d) d))
   <$> docs).
Proof.
revert w. induction docs as [|d docs IH]; intros w.
- simpl. rewrite app_nil_r. by destruct w.
- cbn [fmap list_fmap sweep].
change (ModelHandlers.creating_step m w (ModelHandlers.BHooked d))
  with (Some (call (CallValidate d) w,
              ModelHandlers.BDone
                (ModelHandlers.validated (validate m (heap w) d) d))).
lazy beta iota. rewrite IH. simpl. by rewrite <- app_assoc.
Qed.

Lemma sweep_type_error m docs w :
(∃ hk, retrieved (hooks m) = Some hk) → creating (hooks m) = None →
sweep (ModelHandlers.creating_step m) w (ModelHandlers.BStart <$> docs)
= (w, (λ _, ModelHandlers.BDone (Rejected TypeError)) <$> docs).
Proof.
intros [hk Hrt] Hcr.
assert (∀ d, ModelHandlers.creating_step m w (ModelHandlers.BStart d)
           = Some (w, ModelHandlers.BDone (Rejected TypeError))) as Hstep.
{ intros d. simpl. by rewrite Hrt, Hcr. }
induction docs as [|d docs IH]; [done|].
cbn [fmap list_fmap sweep]. rewrite Hstep.
by rewrite IH.
Qed.

Lemma sweep_settled m (f : value → outcome value) docs w :
sweep (ModelHandlers.creating_step m) w ((λ d, ModelHandlers.BDone (f d)) <$> docs)
= (w, (λ d, ModelHandlers.BDone (f d)) <$> docs).
Proof.
induction docs as [|d docs IH]; [done|].
cbn [fmap list_fmap sweep].
change (ModelHandlers.creating_step m w (ModelHandlers.BDone (f d))) with
(@None (MWorld S * ModelHandlers.Branch)).
by rewrite IH.
Qed.

End CreatingHook.

(** C3 (the code at the failing input).  What decides whether the first
    callback of a branch calls [hooks.creating] is [hooks.retrieved].  With a
    [creating] hook and no [retrieved] hook, the hook is not called: the
    documents are validated as they came.  With a [retrieved] hook and no
    [creating] hook, the callback calls a property that holds nothing: every
    branch is rejected with the type error, and nothing is validated.  With
    both, the [creating] hook is called with the document, before the
    document is validated. *)
Theorem creating_hook_follows_retrieved {T S : Type} `{Cache S}
    (m : Model T) (hk hk' : Hook value) (docs : list value) (d : value)
    (w : MWorld S) :
  ((ModelHandlers.creatingDocuments (with_hooks (Some hk) None m) docs w).1
   = ({| heap := heap w; cache := cache w;
         calls := calls w ++ (CallValidate <$> docs) |},
      (λ d, ModelHandlers.BDone (ModelHandlers.validated (validate m (heap w) d) d))
        <$> docs)
   ∧ creating_calls
       (calls (ModelHandlers.creatingDocuments (with_hooks (Some hk) None m) docs w).1.1)
     = creating_calls (calls w))
  ∧ (ModelHandlers.creatingDocuments (with_hooks None (Some hk') m) docs w).1
    = (w, (λ _, ModelHandlers.BDone (Rejected TypeError)) <$> docs)
  ∧ calls (ModelHandlers.creatingDocuments (with_hooks (Some hk) (Some hk') m) [d] w).1.1
    = calls w ++ CallCreating d
        :: match (hk (heap w) d).2 with
           | Resolved _ => [CallValidate d]
           | Rejected _ => []
           end.
Proof.
  split; [|split].
  - rewrite creatingDocuments_fst.
    rewrite sweep_unhooked by done. cbn [fst snd]. rewrite sweep_validates. simpl.
    split; [done|].
    unfold creating_calls. rewrite omap_app.
    assert (omap (λ c, match c with CallCreating v => Some v | _ => None end)
              (CallValidate <$> docs) = []) as ->; [|by rewrite app_nil_r].
    clear. by induction docs.
  - rewrite creatingDocuments_fst.
    rewrite sweep_type_error by (simpl; eauto). cbn [fst snd].
    by rewrite (sweep_settled _ (λ _, Rejected TypeError)).
  - rewrite creatingDocuments_fst. simpl. unfold run_hook.
    destruct (hk (heap w) d) as [h [[]|e]]; simpl; by rewrite <- ?app_assoc.
Qed.

(** * Further properties *)

(** ** Construction and target *)

(** X1.  A manager that could be constructed fails to resolve its target in
    one case only: it was given the empty string and no configuration.  The
    getter then throws; in every other case it returns a target. *)
Theorem target_missing_only_for_empty_string (self : CoreRef) (arg : CtorArg)
    (o : option Configuration) (c : Core) :
  new_Core self arg o = Resolved c →
  (url c = Rejected "No URL or configuration provided"
   ↔ arg = ArgString "" ∧ o = None)
  ∧ (¬ (arg = ArgString "" ∧ o = None) → ∃ t, url c = Resolved t).
Proof.
  intros Hnew. destruct arg as [s|cfg|]; simpl in Hnew; simplify_eq.
  - destruct (decide (s = "")) as [->|Hs].
    + destruct o as [cfg|].
      * rewrite (url_of_config _ cfg) by done.
        split; [split; [done|by intros [_ [=]]]|]. eauto.
      * split; [done|]. intros Hn. by destruct Hn.
    + rewrite (url_of_literal _ s) by done.
      split; [split; [done|intros [[= ->] _]; done]|]. eauto.
  - rewrite (url_of_config _ cfg) by done.
    split; [split; [done|by intros [[=] _]]|]. eauto.
Qed.

Lemma target_missing_only_for_empty_string_witness :
  (∀ c, new_Core 1 (ArgString "") None = Resolved c →
        url c = Rejected "No URL or configuration provided")
  ∧ ∃ c t, new_Core 1 (ArgString "") (Some (config_of_hosts None None None)) = Resolved c
           ∧ url c = Resolved t.
Proof.
  split.
  - intros c Hc.
    exact (proj2 (proj1 (target_missing_only_for_empty_string 1 (ArgString "") None c Hc))
             (conj eq_refl eq_refl)).
  - eexists. 
    destruct (proj2 (target_missing_only_for_empty_string 1 (ArgString "")
                       (Some (config_of_hosts None None None)) _ eq_refl)) as [t Ht].
    { intros [_ H]. discriminate H. }
    exists t. split; [reflexivity|exact Ht].
Defined.

Lemma uniq_from_snoc (seen l : list string) (x : string) :
  JS.uniq_from seen (l ++ [x])
  = JS.uniq_from seen l ++ (if bool_decide (x ∈ seen ∨ x ∈ l) then [] else [x]).
Proof.
  revert seen. induction l as [|y l IH]; intros seen; simpl.
  - rewrite (bool_decide_ext (x ∈ seen ∨ x ∈ []) (x ∈ seen)) by set_solver.
    by case_bool_decide.
  - case_bool_decide as Hy.
    + rewrite IH. f_equal. apply (f_equal (λ b : bool, if b then [] else [x])).
      apply bool_decide_ext. set_solver.
    + rewrite IH. simpl. f_equal. f_equal.
      apply (f_equal (λ b : bool, if b then [] else [x])).
      apply bool_decide_ext. set_solver.
Qed.

Lemma host_entries_add_host (h : Host) (cfg : Configuration) :
  host_entries (add_host h cfg)
  = host_entries cfg ++ [host_entry (address h) (host_port h) (port cfg)].
Proof.
  unfold host_entries, add_host. simpl. by rewrite map_app, app_assoc.
Qed.

Lemma target_add_duplicate (h : Host) (cfg : Configuration) :
  host_entry (address h) (host_port h) (port cfg) ∈ host_entries cfg →
  target (add_host h cfg) = target cfg.
Proof.
  intros Hin. unfold target, host_list. rewrite host_entries_add_host.
  f_equal. f_equal. f_equal.
  assert (JS.uniq (host_entries cfg ++ [host_entry (address h) (host_port h) (port cfg)])
          = JS.uniq (host_entries cfg)) as Huniq.
  { unfold JS.uniq. rewrite uniq_from_snoc, bool_decide_true by (by right).
    by rewrite app_nil_r. }
  destruct (host_entries cfg) as [|e es] eqn:Hes; [by apply elem_of_nil in Hin|].
  cbn [app]. change (e :: es ++ [?x]) with ((e :: es) ++ [x]) in Huniq.
  cbn [app] in Huniq. by rewrite Huniq.
Qed.

(** X2.  Listing a host twice is harmless: an additional host that is already
    among the additional hosts, or that names the single host and has no
    port of its own, leaves the target what it was. *)
Theorem duplicate_host_leaves_target (self : CoreRef) (cfg : Configuration) (h : Host) :
  h ∈ default [] (hosts cfg)
  ∨ (host cfg = Some (address h) ∧ address h ≠ "" ∧ host_port h = None) →
  url (core_of_config self (add_host h cfg)) = url (core_of_config self cfg).
Proof.
  intros Hdup.
  rewrite (url_of_config _ (add_host h cfg)), (url_of_config _ cfg) by done.
  f_equal. apply target_add_duplicate. unfold host_entries.
  apply elem_of_app. destruct Hdup as [Hin|(Hhost & Hne & Hport)].
  - right. apply list_elem_of_fmap. by exists h.
  - left. rewrite Hhost. simpl.
    destruct (String.eqb_spec (address h) ""); [done|].
    rewrite Hport. apply list_elem_of_singleton. done.
Qed.

Lemma duplicate_host_leaves_target_witness :
  let cfg := config_of_hosts (Some "a") (Some 27017%N)
               (Some [mkHost "b" None; mkHost "c" (Some 1%N)]) in
  url (core_of_config 0 (add_host (mkHost "c" (Some 1%N)) cfg))
  = Resolved "mongodb://a:27017,b:27017,c:1"
  ∧ url (core_of_config 0 (add_host (mkHost "a" None) cfg))
    = Resolved "mongodb://a:27017,b:27017,c:1".
Proof.
  intros cfg. split.
  - rewrite (duplicate_host_leaves_target 0 cfg (mkHost "c" (Some 1%N))).
    + reflexivity.
    + left. simpl. apply list_elem_of_further, list_elem_of_here.
  - rewrite (duplicate_host_leaves_target 0 cfg (mkHost "a" None)).
    + reflexivity.
    + right. split; [reflexivity|]. split; [discriminate|reflexivity].
Defined.

(** ** The life of a connection *)

(** X3.  What the manager hands out is what [onConnecting] resolved with, not
    what the driver returned: a call alone on an idle manager, answered by
    the driver with [db] and by the hook with [db'], resolves with the
    manager, stores [db'] (the [connection] accessor returns it), forgets
    the promise of the attempt, and has called the driver, [onConnecting]
    and [onConnected] once each, in that order, [onConnected] after the
    assignment. *)
Theorem connect_stores_hook_result (hk : Hooks) (drv : Driver) (w : World)
    (target : string) (db db' : Db) :
  idle (core w) →
  url (core w) = Resolved target →
  onConnecting hk (trace w ++ [EvConnect target (length (promises w))]) db
  = Some (Resolved db') →
  onConnected hk (trace w ++ [EvConnect target (length (promises w));
                              EvOnConnecting db; EvConnection (Some db')])
  = Some (Resolved ()) →
  ∃ w',
    connect hk drv (Resolved db) w = (w', Some (Resolved (this (core w))))
    ∧ connection w' = Resolved db'
    ∧ _connectPromise (core w') = None
    ∧ trace w' = trace w ++ [EvConnect target (length (promises w));
                             EvOnConnecting db; EvConnection (Some db');
                             EvOnConnected].
Proof.
  destruct w as [[self u cfg conn cp] ps tr]. intros [Hc Hp] Hurl Hing Hed.
  simpl in *. subst.
  unfold connect, connect_all. cbn [replicate sweep].
  unfold connect_step at 1. simpl. rewrite Hurl.
  cbn [sweeps sweep fst snd settle_all core promises trace connect_step
       mongoConnectAsyc set_connectPromise emit _connection _connectPromise].
  rewrite settled_lookup_new. simpl. rewrite Hing. simpl.
  rewrite <- !app_assoc. simpl. rewrite Hed. simpl.
  eexists. split; [reflexivity|]. simpl.
  split; [done|]. split; [done|]. by rewrite <- !app_assoc.
Qed.

Lemma connect_stores_hook_result_witness :
  let hk := {| onConnecting := λ _ db, Some (Resolved (db + 100));
               onConnected := λ _, Some (Resolved ()) |} in
  let drv := mkDriver (λ _, Returned (Resolved ())) in
  let w := fresh_world {| this := 1; _url := Some "mongodb://h"; _config := None;
                          _connection := None; _connectPromise := None |} in
  ∃ w',
    connect hk drv (Resolved 4) w = (w', Some (Resolved 1))
    ∧ connection w' = Resolved 104
    ∧ _connectPromise (core w') = None
    ∧ trace w' = [EvConnect "mongodb://h" 0; EvOnConnecting 4;
                  EvConnection (Some 104); EvOnConnected].
Proof.
  intros hk drv w.
  exact (connect_stores_hook_result hk drv w "mongodb://h" 4 104
           (conj eq_refl eq_refl) eq_refl eq_refl eq_refl).
Defined.



Lemma url_same_settings (c c' : Core) :
  _url c' = _url c → _config c' = _config c → url c' = url c.
Proof. unfold url. by intros -> ->. Qed.

(** X5.  [close] makes the manager ready for a new attempt.  On an established
    manager it leaves nothing for the [connection] accessor to return and
    issues nothing itself; the next call of [connect] then goes to the driver
    again, right after the release, where without the [close] it would have
    reused the connection. *)
Theorem reconnect_after_close (hk : Hooks) (drv : Driver) (o : outcome Db) (w : World)
    (db : Db) (target : string) :
  _connection (core w) = Some db →
  _connectPromise (core w) = None →
  url (core w) = Resolved target →
  connection (close drv w).1 = Rejected "Iridium Core not connected to a database."
  ∧ issued (close drv w).1 = issued w
  ∧ issued (connect hk drv o (close drv w).1).1 = S (issued w)
  ∧ ∃ rest,
      trace (connect hk drv o (close drv w).1).1
      = trace w ++ [EvConnection None; EvRelease db;
                    EvConnect target (length (promises w))] ++ rest.
Proof.
  destruct w as [[self u cfg conn cp] ps tr]. simpl. intros -> -> Hurl.
  assert (url {| this := self; _url := u; _config := cfg; _connection := None;
                 _connectPromise := None |} = Resolved target) as Hurl'.
  { by rewrite <- Hurl; apply url_same_settings. }
  unfold close. simpl. split; [done|]. split; [count_issued|].
  unfold connect, connect_all. cbn [replicate sweep].
  unfold connect_step at 1. simpl. rewrite Hurl'.
  cbn [sweeps sweep fst snd settle_all core promises trace connect_step
       mongoConnectAsyc set_connectPromise emit _connection _connectPromise].
  rewrite settled_lookup_new. unfold db_close.
  destruct o as [d|e]; simpl;
    repeat match goal with
      | |- context [onConnecting hk ?t ?d] =>
          destruct (onConnecting hk t d) as [[?|?]|]; simpl
      | |- context [onConnected hk ?t] =>
          destruct (onConnected hk t) as [[[]|?]|]; simpl
      | |- context [close_result drv ?d] =>
          destruct (close_result drv d); simpl
      end;
    (split; [count_issued|]); rewrite <- ?app_assoc; simpl; eauto.
Qed.

Lemma reconnect_after_close_witness :
  let drv := mkDriver (λ _, Returned (Resolved ())) in
  let w := {| core := {| this := 1; _url := Some "mongodb://h"; _config := None;
                         _connection := Some 4; _connectPromise := None |};
              promises := [Some (Resolved 4)];
              trace := [EvConnect "mongodb://h" 0; EvOnConnecting 4;
                        EvConnection (Some 4); EvOnConnected] |} in
  issued w = 1
  ∧ issued (connect default_hooks drv (Resolved 5) w).1 = 1
  ∧ issued (connect default_hooks drv (Resolved 5) (close drv w).1).1 = 2.
Proof.
  intros drv w. split; [reflexivity|]. split; [reflexivity|].
  exact (proj1 (proj2 (proj2
    (reconnect_after_close default_hooks drv (Resolved 5) w 4 "mongodb://h"
       eq_refl eq_refl eq_refl)))).
Defined.

(** X6.  [close] does not cancel an attempt in flight.  While the manager
    waits for the driver it holds no connection, so [close] changes nothing;
    when the driver then answers, the waiting call goes on, stores the
    connection and resolves.  The connection is established after the
    [close], and nothing has released it. *)
Theorem close_does_not_cancel (hk : Hooks) (drv : Driver) (w w1 : World)
    (p : PromiseId) (db db' : Db) :
  _connection (core w) = None →
  _connectPromise (core w) = Some p →
  settle p (Resolved db) (close drv w).1 = Some w1 →
  onConnecting hk (trace w) db = Some (Resolved db') →
  onConnected hk (trace w ++ [EvOnConnecting db; EvConnection (Some db')])
  = Some (Resolved ()) →
  close drv w = (w, Resolved (this (core w)))
  ∧ ∃ w',
      sweeps (connect_step hk drv) 4 (w1, [PcAwait p])
      = (w', [PcDone (Resolved (this (core w)))])
      ∧ connection w' = Resolved db'
      ∧ trace w' = trace w ++ [EvOnConnecting db; EvConnection (Some db');
                               EvOnConnected].
Proof.
  destruct w as [[self u cfg conn cp] ps tr]. simpl. intros -> -> Hsettle Hing Hed.
  unfold close in *. simpl in *. split; [done|].
  unfold settle in Hsettle. simpl in Hsettle.
  destruct (ps !! p) as [[x|]|] eqn:Hp; simplify_eq.
  assert (p < length ps) as Hlt by (by eapply lookup_lt_Some).
  cbn [sweeps sweep fst snd core promises trace connect_step
       set_connectPromise set_connection emit _connection _connectPromise].
  rewrite list_lookup_insert_eq by done. simpl. rewrite Hing. simpl.
  rewrite <- !app_assoc. simpl. rewrite Hed. simpl.
  eexists. split; [reflexivity|]. simpl. split; [done|].
  by rewrite <- !app_assoc.
Qed.

Lemma close_does_not_cancel_witness :
  let drv := mkDriver (λ _, Returned (Resolved ())) in
  let w := {| core := {| this := 1; _url := Some "mongodb://h"; _config := None;
                         _connection := None; _connectPromise := Some 0 |};
              promises := [None]; trace := [EvConnect "mongodb://h" 0] |} in
  let w1 := {| core := core w; promises := [Some (Resolved 4)]; trace := trace w |} in
  close drv w = (w, Resolved 1)
  ∧ ∃ w',
      sweeps (connect_step default_hooks drv) 4 (w1, [PcAwait 0])
      = (w', [PcDone (Resolved 1)])
      ∧ connection w' = Resolved 4
      ∧ trace w' = [EvConnect "mongodb://h" 0; EvOnConnecting 4;
                    EvConnection (Some 4); EvOnConnected].
Proof.
  intros drv w w1.
  exact (close_does_not_cancel default_hooks drv w w1 0 4 4
           eq_refl eq_refl eq_refl eq_refl eq_refl).
Defined.

(** X7.  A call of [connect] on an established manager can lose the
    connection: if [onConnecting] rejects the connection it is handed again,
    the rejection handler releases it; when the release returns, the handler
    clears it, and the call is rejected with the error of the hook.  When
    the release throws, the call is rejected with what it threw, and the
    manager keeps the connection it has just released. *)
Theorem failed_reconnect_drops_connection (hk : Hooks) (drv : Driver) (o : outcome Db)
    (w : World) (db : Db) (e : Err) :
  _connection (core w) = Some db →
  onConnecting hk (trace w) db = Some (Rejected e) →
  (∀ r, close_result drv db = Returned r →
     ∃ w',
       connect hk drv o w = (w', Some (Rejected e))
       ∧ trace w' = trace w ++ [EvOnConnecting db; EvRelease db; EvConnection None]
       ∧ connection w' = Rejected "Iridium Core not connected to a database."
       ∧ idle (core w'))
  ∧ (∀ e', close_result drv db = Thrown e' →
       ∃ w',
         connect hk drv o w = (w', Some (Rejected e'))
         ∧ trace w' = trace w ++ [EvOnConnecting db; EvRelease db]
         ∧ connection w' = Resolved db).
Proof.
  destruct w as [[self u cfg conn cp] ps tr]. simpl. intros -> Hing.
  split; intros x Hclose;
    unfold connect, connect_all; cbn [replicate sweep];
    unfold connect_step at 1; simpl;
    cbn [sweeps sweep fst snd settle_all core promises trace connect_step
         mongoConnectAsyc set_connectPromise emit _connection _connectPromise];
    rewrite Hing; simpl; unfold db_close; simpl; rewrite Hclose; simpl;
    eexists; (split; [reflexivity|]); simpl;
    (split; [by rewrite <- !app_assoc|done]).
Qed.

Lemma failed_reconnect_drops_connection_witness :
  let hk := {| onConnecting := λ tr _, if bool_decide (EvOnConnected ∈ tr)
                                       then Some (Rejected "already set up")
                                       else Some (Resolved 4);
               onConnected := λ _, Some (Resolved ()) |} in
  let drv := mkDriver (λ _, Returned (Resolved ())) in
  let broken := mkDriver (λ _, Thrown "topology was destroyed") in
  let w := fresh_world {| this := 1; _url := Some "mongodb://h"; _config := None;
                          _connection := None; _connectPromise := None |} in
  let w1 := (connect hk drv (Resolved 4) w).1 in
  connection w1 = Resolved 4
  ∧ (∃ w',
       connect hk drv (Resolved 4) w1 = (w', Some (Rejected "already set up"))
       ∧ trace w' = trace w1 ++ [EvOnConnecting 4; EvRelease 4; EvConnection None]
       ∧ connection w' = Rejected "Iridium Core not connected to a database."
       ∧ idle (core w'))
  ∧ (∃ w',
       connect hk broken (Resolved 4) w1
       = (w', Some (Rejected "topology was destroyed"))
       ∧ trace w' = trace w1 ++ [EvOnConnecting 4; EvRelease 4]
       ∧ connection w' = Resolved 4).
Proof.
  intros hk drv broken w w1. split; [reflexivity|]. split.
  - apply (proj1 (failed_reconnect_drops_connection hk drv (Resolved 4) w1 4
                    "already set up" eq_refl ltac:(vm_compute; reflexivity))
             (Resolved ())).
    reflexivity.
  - apply (proj2 (failed_reconnect_drops_connection hk broken (Resolved 4) w1 4
                    "already set up" eq_refl ltac:(vm_compute; reflexivity))
             "topology was destroyed").
    reflexivity.
Defined.

(** A round in which every callback adds [k] to one measure of the world and
    [l] to another adds [k] and [l] once per call. *)
Lemma sweep_measure {W P : Type} (step : W → P → option (W * P))
    (f g : W → nat) (k l : nat) (A B : P → Prop) :
  (∀ w pc, A pc →
     ∃ w' pc', step w pc = Some (w', pc') ∧ B pc'
               ∧ f w' = k + f w ∧ g w' = l + g w) →
  ∀ w ts, Forall A ts →
  Forall B (sweep step w ts).2
  ∧ length (sweep step w ts).2 = length ts
  ∧ f (sweep step w ts).1 = k * length ts + f w
  ∧ g (sweep step w ts).1 = l * length ts + g w.
Proof.
  intros Hstep w ts. revert w. induction ts as [|pc ts IH]; intros w Hts; simpl.
  - split; [done|]. split; [done|]. lia.
  - apply Forall_cons in Hts as [Hpc Hts].
    destruct (Hstep w pc Hpc) as (w' & pc' & -> & Hpc' & Hf & Hg).
    specialize (IH w' Hts).
    destruct (sweep step w' ts) as [w'' ts'']. simpl in *.
    destruct IH as (? & ? & ? & ?).
    split; [by constructor|]. split; [lia|]. lia.
Qed.

Lemma count_events_emit (p : Event → bool) (e : Event) (w : World) :
  count_events p (emit e w) = (if p e then 1 else 0) + count_events p w.
Proof.
  unfold count_events, emit. simpl. rewrite filter_app, length_app.
  destruct (p e) eqn:He.
  - rewrite (filter_cons_True _ e []) by done. simpl. lia.
  - rewrite (filter_cons_False _ e []) by (by rewrite He). simpl. lia.
Qed.

(** X8.  The hooks run once per call, the driver once per attempt: when
    several calls of [connect] are made together on an idle manager and the
    attempt succeeds, the driver's [connect] has been called once, and
    [onConnecting] and [onConnected] once for every call. *)
Theorem hooks_run_once_per_call (hk : Hooks) (drv : Driver) (c : Core) (n : nat)
    (target : string) (db : Db) :
  idle c →
  url c = Resolved target →
  (∀ tr d, resolves (onConnecting hk tr d) = true) →
  (∀ tr, resolves (onConnected hk tr) = true) →
  issued (connect_all hk drv (Resolved db) (S n) (fresh_world c)).1 = 1
  ∧ count_events is_onConnecting
      (connect_all hk drv (Resolved db) (S n) (fresh_world c)).1 = S n
  ∧ count_events is_onConnected
      (connect_all hk drv (Resolved db) (S n) (fresh_world c)).1 = S n.
Proof.
  intros Hidle Hurl Hing Hed.
  split; [by apply (connect_all_one_issue _ _ _ _ target)|].
  destruct Hidle as [Hc Hp].
  set (w1 := set_connectPromise (Some 0)
               (emit (EvConnect target 0)
                  {| core := c; promises := [None]; trace := [] |})).
  set (w2 := settle_all (Resolved db) w1).
  assert (connect_step hk drv (fresh_world c) PcStart = Some (w1, PcAwait 0)) as H0.
  { unfold connect_step, fresh_world. simpl. by rewrite Hc, Hp, Hurl. }
  assert (connect_step hk drv w1 PcStart = Some (w1, PcAwait 0)) as H1.
  { unfold connect_step, w1. simpl. by rewrite Hc. }
  assert (connect_step hk drv w2 (PcAwait 0) = Some (w2, PcDb db)) as H2 by done.
  assert (sweep (connect_step hk drv) (fresh_world c) (replicate (S n) PcStart)
          = (w1, replicate (S n) (PcAwait 0))) as Hr1.
  { cbn [replicate sweep]. rewrite H0. by rewrite (sweep_same _ _ _ _ _ _ H1). }
  assert (sweep (connect_step hk drv) w2 (replicate (S n) (PcAwait 0))
          = (w2, replicate (S n) (PcDb db))) as Hr2 by by apply sweep_same.
  unfold connect_all. rewrite Hr1. fold w2.
  change (sweeps (connect_step hk drv) 4 (w2, replicate (S n) (PcAwait 0)))
    with (sweeps (connect_step hk drv) 3
            (sweep (connect_step hk drv) w2 (replicate (S n) (PcAwait 0)))).
  rewrite Hr2. cbn [sweeps fst snd].
  destruct (sweep_measure (connect_step hk drv)
              (count_events is_onConnecting) (count_events is_onConnected) 1 0
              (λ pc, pc = PcDb db) (λ pc, ∃ d, pc = PcHooked d))
    with (w := w2) (ts := replicate (S n) (PcDb db))
    as (Hts3 & Hlen3 & Hf3 & Hg3); [|by apply Forall_replicate|].
  { intros w pc ->. cbn [connect_step].
    specialize (Hing (trace w) db).
    destruct (onConnecting hk (trace w) db) as [[d|]|]; [|done|done].
    eexists _, _. split; [done|]. split; [by eexists|].
    by rewrite !count_events_emit. }
  destruct (sweep (connect_step hk drv) w2 (replicate (S n) (PcDb db)))
    as [w3 ts3]. simpl in Hts3, Hlen3, Hf3, Hg3. cbn [sweeps fst snd].
  destruct (sweep_measure (connect_step hk drv)
              (count_events is_onConnecting) (count_events is_onConnected) 0 1
              (λ pc, ∃ d, pc = PcHooked d) (λ pc, pc = PcReady))
    with (w := w3) (ts := ts3)
    as (Hts4 & Hlen4 & Hf4 & Hg4); [|done|].
  { intros w pc [d ->]. cbn [connect_step].
    match goal with |- context [onConnected hk ?tr] =>
      specialize (Hed tr); destruct (onConnected hk tr) as [[]|]; [|done|done] end.
    eexists _, _. split; [done|]. split; [done|].
    unfold count_events, emit, set_connection, set_connectPromise. simpl.
    rewrite !filter_app, !length_app. simpl. lia. }
  destruct (sweep (connect_step hk drv) w3 ts3) as [w4 ts4].
  simpl in Hts4, Hlen4, Hf4, Hg4. cbn [sweeps fst snd].
  destruct (sweep_measure (connect_step hk drv)
              (count_events is_onConnecting) (count_events is_onConnected) 0 0
              (λ pc, pc = PcReady) (λ pc, True))
    with (w := w4) (ts := ts4)
    as (_ & _ & Hf5 & Hg5); [|done|].
  { intros w pc ->. cbn [connect_step]. eexists _, _. by split. }
  destruct (sweep (connect_step hk drv) w4 ts4) as [w5 ts5].
  simpl in Hf5, Hg5. simpl.
  rewrite length_replicate in *.
  assert (count_events is_onConnecting w2 = 0) as Hf2 by done.
  assert (count_events is_onConnected w2 = 0) as Hg2 by done.
  lia.
Qed.

Lemma hooks_run_once_per_call_witness :
  let c := {| this := 3; _url := Some "mongodb://localhost/app"; _config := None;
              _connection := None; _connectPromise := None |} in
  let s := connect_all default_hooks (mkDriver (λ _, Returned (Resolved ()))) (Resolved 9) 3
             (fresh_world c) in
  issued s.1 = 1
  ∧ count_events is_onConnecting s.1 = 3
  ∧ count_events is_onConnected s.1 = 3.
Proof.
  intros c s.
  exact (hooks_run_once_per_call default_hooks (mkDriver (λ _, Returned (Resolved ()))) c 2
           "mongodb://localhost/app" 9 (conj eq_refl eq_refl) eq_refl
           (λ _ _, eq_refl) (λ _, eq_refl)).
Defined.

(** ** The model cache, further *)

(** The in-process map removes what it holds. *)
Global Instance MemoryCache_clear : ClearCache (gmap string value).
Proof.
  split; simpl.
  - intros k v m. by rewrite lookup_insert_eq.
  - intros k m. by rewrite lookup_delete_eq.
  - intros k m. by rewrite lookup_delete_eq.
Qed.

Section ModelCacheCalls.
Context {T S : Type} `{Cache S}.
Implicit Types (m : Model T) (w : MWorld S).

Lemma modelcache_set_valid m w d doc s :
cacheDirector m = Some d → cache w = Some s → valid d (heap w) doc = true →
ModelCache.set m doc w
= ({| heap := heap w; cache := Some (cache_set (buildKey d (heap w) doc) doc s).1;
      calls := calls w ++ [CallModelCacheSet doc;
                           CallCacheSet (buildKey d (heap w) doc) doc] |},
   (cache_set (buildKey d (heap w) doc) doc s).2).
Proof.
intros Hd Hs Hvalid. unfold ModelCache.set. rewrite Hd. simpl.
rewrite Hvalid, Hs. simpl. destruct (cache_set _ _ _). simpl.
unfold with_cache, call. simpl. by rewrite <- app_assoc.
Qed.

Lemma modelcache_get_valid m w d conds s :
cacheDirector m = Some d → cache w = Some s → validQuery d (heap w) conds = true →
ModelCache.get m conds w
= ({| heap := heap w; cache := Some (cache_get (buildQueryKey d (heap w) conds) s).1;
      calls := calls w ++ [CallCacheGet (buildQueryKey d (heap w) conds)] |},
   (cache_get (buildQueryKey d (heap w) conds) s).2).
Proof.
intros Hd Hs Hvalid. unfold ModelCache.get. rewrite Hd. simpl.
rewrite Hvalid, Hs. simpl. by destruct (cache_get _ _).
Qed.

Lemma modelcache_clear_valid m w d conds s :
cacheDirector m = Some d → cache w = Some s → validQuery d (heap w) conds = true →
ModelCache.clear m conds w
= ({| heap := heap w; cache := Some (cache_clear (buildQueryKey d (heap w) conds) s).1;
      calls := calls w ++ [CallCacheClear (buildQueryKey d (heap w) conds)] |},
   (cache_clear (buildQueryKey d (heap w) conds) s).2).
Proof.
intros Hd Hs Hvalid. unfold ModelCache.clear. rewrite Hd. simpl.
rewrite Hvalid, Hs. simpl. by destruct (cache_clear _ _).
Qed.

Lemma modelcache_set_invalid m w d v :
cacheDirector m = Some d → valid d (heap w) v = false →
ModelCache.set m v w = (call (CallModelCacheSet v) w, Resolved v).
Proof. intros Hd Hv. unfold ModelCache.set. rewrite Hd. simpl. by rewrite Hv. Qed.

Lemma modelcache_query_invalid m w d q :
cacheDirector m = Some d → validQuery d (heap w) q = false →
ModelCache.get m q w = (w, Resolved VNull)
∧ ModelCache.clear m q w = (w, Resolved false).
Proof.
intros Hd Hq. unfold ModelCache.get, ModelCache.clear. rewrite Hd. by rewrite Hq.
Qed.

End ModelCacheCalls.

(** X9.  [clear] undoes [set].  With a director, over a cache that removes
    what it holds (as the in-process map does), after a cacheable document
    was stored, [clear] for cacheable conditions that key like the document
    reports a removal; a [get] for these conditions then finds nothing, and a
    second [clear] reports that nothing was removed.  The three calls reach
    the cache of the core under the one key of the document. *)
Theorem modelcache_clear_undoes_set {T S : Type} `{Cache S}
    (m : Model T) (w : MWorld S) (d : CacheDirector) (doc conds : value) (s : S) :
  ClearCache S →
  cacheDirector m = Some d →
  cache w = Some s →
  valid d (heap w) doc = true →
  validQuery d (heap w) conds = true →
  buildKey d (heap w) doc = buildQueryKey d (heap w) conds →
  let w1 := (ModelCache.set m doc w).1 in
  let w2 := (ModelCache.clear m conds w1).1 in
  (ModelCache.clear m conds w1).2 = Resolved true
  ∧ (ModelCache.get m conds w2).2 = Resolved VUndefined
  ∧ (ModelCache.clear m conds w2).2 = Resolved false
  ∧ calls (ModelCache.clear m conds w2).1
    = calls w ++ [CallModelCacheSet doc;
                  CallCacheSet (buildKey d (heap w) doc) doc;
                  CallCacheClear (buildKey d (heap w) doc);
                  CallCacheClear (buildKey d (heap w) doc)].
Proof.
  intros Hclear Hd Hs Hvalid Hquery Hkey w1 w2. subst w1 w2.
  rewrite (modelcache_set_valid m w d doc s) by done. simpl.
  rewrite (modelcache_clear_valid _ _ d conds _) by done. simpl.
  rewrite (modelcache_get_valid _ _ d conds _) by done.
  rewrite (modelcache_clear_valid _ _ d conds _) by done. simpl.
  rewrite <- Hkey.
  split; [apply clear_set|]. split; [apply get_clear|]. split; [apply clear_clear|].
  by rewrite <- !app_assoc.
Qed.

Lemma modelcache_clear_undoes_set_witness :
  let m : Model unit :=
    {| hooks := {| creating := None; retrieved := None; ready := None; saving := None |};
       cacheDirector := Some id_director;
       validate := λ _ _, mkValidation false ""; is_Instance := λ _, true |} in
  let w : MWorld (gmap string value) :=
    {| heap := [[("_id", VNum 7); ("name", VStr "x")]; [("_id", VNum 7)]];
       cache := Some ∅; calls := [] |} in
  let w1 := (ModelCache.set m (VRef 0) w).1 in
  let w2 := (ModelCache.clear m (VRef 1) w1).1 in
  (ModelCache.clear m (VRef 1) w1).2 = Resolved true
  ∧ (ModelCache.get m (VRef 1) w2).2 = Resolved VUndefined
  ∧ (ModelCache.clear m (VRef 1) w2).2 = Resolved false
  ∧ calls (ModelCache.clear m (VRef 1) w2).1
    = [CallModelCacheSet (VRef 0); CallCacheSet "7" (VRef 0);
       CallCacheClear "7"; CallCacheClear "7"].
Proof.
  intros m w.
  exact (modelcache_clear_undoes_set m w id_director (VRef 0) (VRef 1) ∅
           MemoryCache_clear eq_refl eq_refl eq_refl eq_refl eq_refl).
Defined.

(** X10.  What the director does not mark cacheable cannot disturb the cache.
    After a cacheable document was stored over a cache that echoes, a [set]
    of a document that is not cacheable resolves with that document and
    writes nothing, a [clear] for conditions that are not cacheable reports
    that nothing was removed, and a [get] for the stored document's
    conditions still resolves with the stored document. *)
Theorem modelcache_entry_survives {T S : Type} `{Cache S}
    (m : Model T) (w : MWorld S) (d : CacheDirector) (doc conds other query : value)
    (s : S) :
  EchoCache S →
  cacheDirector m = Some d →
  cache w = Some s →
  valid d (heap w) doc = true →
  validQuery d (heap w) conds = true →
  buildKey d (heap w) doc = buildQueryKey d (heap w) conds →
  valid d (heap w) other = false →
  validQuery d (heap w) query = false →
  let w1 := (ModelCache.set m doc w).1 in
  let w2 := (ModelCache.set m other w1).1 in
  (ModelCache.set m other w1).2 = Resolved other
  ∧ cache w2 = cache w1
  ∧ cache_writes (calls w2) = cache_writes (calls w1)
  ∧ ModelCache.clear m query w2 = (w2, Resolved false)
  ∧ ModelCache.get m query w2 = (w2, Resolved VNull)
  ∧ (ModelCache.get m conds w2).2 = Resolved doc.
Proof.
  intros Hecho Hd Hs Hvalid Hquery Hkey Hother Hq w1 w2. subst w1 w2.
  rewrite (modelcache_set_valid m w d doc s) by done. simpl.
  rewrite (modelcache_set_invalid _ _ d other) by done. simpl.
  split; [done|]. split; [done|].
  split. { rewrite cache_writes_app. simpl. by rewrite app_nil_r. }
  destruct (modelcache_query_invalid m
              (call (CallModelCacheSet other)
                 {| heap := heap w;
                    cache := Some (cache_set (buildKey d (heap w) doc) doc s).1;
                    calls := calls w ++ [CallModelCacheSet doc;
                                         CallCacheSet (buildKey d (heap w) doc) doc] |})
              d query Hd Hq) as [Hg Hc].
  split; [done|]. split; [done|].
  rewrite (modelcache_get_valid _ _ d conds (cache_set (buildKey d (heap w) doc) doc s).1)
    by done.
  simpl. rewrite <- Hkey. apply get_set.
Qed.

Lemma modelcache_entry_survives_witness :
  let m : Model unit :=
    {| hooks := {| creating := None; retrieved := None; ready := None; saving := None |};
       cacheDirector := Some id_director;
       validate := λ _ _, mkValidation false ""; is_Instance := λ _, true |} in
  let w : MWorld (gmap string value) :=
    {| heap := [[("_id", VNum 7); ("name", VStr "x")]; [("_id", VNum 7)];
                [("name", VStr "y")]];
       cache := Some ∅; calls := [] |} in
  let w1 := (ModelCache.set m (VRef 0) w).1 in
  let w2 := (ModelCache.set m (VRef 2) w1).1 in
  (ModelCache.set m (VRef 2) w1).2 = Resolved (VRef 2)
  ∧ cache w2 = cache w1
  ∧ cache_writes (calls w2) = cache_writes (calls w1)
  ∧ ModelCache.clear m (VRef 2) w2 = (w2, Resolved false)
  ∧ ModelCache.get m (VRef 2) w2 = (w2, Resolved VNull)
  ∧ (ModelCache.get m (VRef 1) w2).2 = Resolved (VRef 0).
Proof.
  intros m w.
  exact (modelcache_entry_survives m w id_director (VRef 0) (VRef 1) (VRef 2) (VRef 2) ∅
           MemoryCache_echo eq_refl eq_refl eq_refl eq_refl eq_refl eq_refl eq_refl).
Defined.

(** ** A document is received, further *)

(** X11.  A [retrieved] hook that rejects ends the pipeline: the promise is
    rejected with the error of the hook; the hook is the only call that was
    made, so no copy was taken, nothing was written to the cache and the
    wrapper was not called. *)
Theorem received_hook_rejection_stops {T S : Type} `{Cache S}
    (m : Model T) (conditions target : value) (wrapper : value → bool → bool → T)
    (o : QueryOptions) (w : MWorld S) (hk : Hook value) (h : Heap) (e : Err) :
  retrieved (hooks m) = Some hk →
  hk (heap w) target = (h, Rejected e) →
  ModelHandlers.documentReceived m conditions target wrapper o w
  = ({| heap := h; cache := cache w; calls := calls w ++ [CallRetrieved target] |},
     Rejected e)
  ∧ model_cache_writes
      (calls (ModelHandlers.documentReceived m conditions target wrapper o w).1)
    = model_cache_writes (calls w)
  ∧ wrapper_calls
      (calls (ModelHandlers.documentReceived m conditions target wrapper o w).1)
    = wrapper_calls (calls w).
Proof.
  intros Hrt Hhk.
  assert (ModelHandlers.documentReceived m conditions target wrapper o w
          = ({| heap := h; cache := cache w;
                calls := calls w ++ [CallRetrieved target] |}, Rejected e)) as ->.
  { unfold ModelHandlers.documentReceived, ModelHandlers.then_, ModelHandlers.resolve,
      ModelHandlers.received_hook, run_hook.
    rewrite Hrt, Hhk. done. }
  split; [done|]. simpl.
  rewrite model_cache_writes_app, wrapper_calls_app. simpl.
  by rewrite !app_nil_r.
Qed.

Lemma received_hook_rejection_stops_witness :
  let hk : Hook value := λ h _, (h, Rejected "not for you") in
  let m := with_hooks None (Some hk) plain_model in
  let wrapper := λ (d : value) (isNew isPartial : bool), (d, isNew, isPartial) in
  ModelHandlers.documentReceived m VNull (VRef 0) wrapper
    (mkQueryOptions None None None) one_document
  = ({| heap := heap one_document; cache := Some ∅;
        calls := [CallRetrieved (VRef 0)] |}, Rejected "not for you").
Proof.
  intros hk m wrapper.
  exact (proj1 (received_hook_rejection_stops m VNull (VRef 0) wrapper
                  (mkQueryOptions None None None) one_document hk
                  (heap one_document) "not for you" eq_refl eq_refl)).
Defined.

(** X12.  Without a cache on the core, or with [cache: false], the pipeline
    takes no copy and writes nothing: once the [retrieved] hook has returned
    it goes straight to the wrapper, which is called once, on the document
    itself. *)
Theorem received_without_caching {T S : Type} `{Cache S}
    (m : Model T) (conditions target : value) (wrapper : value → bool → bool → T)
    (o : QueryOptions) (w w1 : MWorld S) :
  ModelHandlers.received_hook m target w = (w1, Resolved ()) →
  cache w = None ∨ opt_cache o = Some false →
  let r := ModelHandlers.documentReceived m conditions target wrapper o w in
  r = ModelHandlers.received_wrap m target wrapper (ModelHandlers.defaults o) w1
  ∧ model_cache_writes (calls r.1) = model_cache_writes (calls w)
  ∧ cache_writes (calls r.1) = cache_writes (calls w)
  ∧ cache r.1 = cache w
  ∧ wrapper_calls (calls r.1)
    = wrapper_calls (calls w)
      ++ [(target, false, bool_decide (is_Some (opt_fields o)))].
Proof.
  intros Hhook Hoff r. subst r.
  pose proof (received_hook_quiet m target w) as (cs0 & Hc0 & Hm0 & Hw0 & Hwc0 & Hk0).
  rewrite Hhook in Hc0, Hk0. simpl in Hc0, Hk0.
  rewrite (documentReceived_after_hook _ _ _ _ _ _ _ Hhook).
  assert (ModelHandlers.received_cache m target (ModelHandlers.defaults o) w1
          = (w1, Resolved ())) as ->.
  { unfold ModelHandlers.received_cache, ModelHandlers.defaults, ModelHandlers.truthy.
    simpl. destruct Hoff as [Hnone| ->].
    - rewrite Hk0, Hnone. rewrite bool_decide_false; [done|]. by intros [? [=]].
    - simpl. by rewrite andb_false_r. }
  split; [done|].
  pose proof (received_wrap_calls m target wrapper (ModelHandlers.defaults o) w1)
    as (cs2 & Hc2 & Hm2 & Hw2 & Hwc2 & Hk2 & _).
  rewrite Hc2, Hc0, Hk2, Hk0.
  rewrite ?model_cache_writes_app, ?cache_writes_app, ?wrapper_calls_app.
  rewrite Hm0, Hw0, Hwc0, Hm2, Hw2, Hwc2. simpl. by rewrite !app_nil_r.
Qed.

Lemma received_without_caching_witness :
  let wrapper := λ (d : value) (isNew isPartial : bool), (d, isNew, isPartial) in
  let r := ModelHandlers.documentReceived plain_model VNull (VRef 0) wrapper
             (mkQueryOptions (Some false) None None) one_document in
  r = (call (CallWrapper (VRef 0) false false) one_document,
       Resolved (VRef 0, false, false))
  ∧ cache_writes (calls r.1) = []
  ∧ cache r.1 = Some ∅.
Proof.
  intros wrapper r.
  destruct (received_without_caching plain_model VNull (VRef 0) wrapper
              (mkQueryOptions (Some false) None None) one_document one_document
              eq_refl (or_intror eq_refl)) as (Hr & _ & Hcw & Hc & _).
  split; [exact Hr|]. split; [exact Hcw|exact Hc].
Defined.

(** X13.  The order of a read that is cached, and what a late failure leaves
    behind.  After the [retrieved] hook, the pipeline hands the copy to the
    model cache, which writes it to the cache of the core under the key of
    the director; then it calls the wrapper on the document, then the [ready]
    hook on what the wrapper returned.  The promise settles as the [ready]
    hook does.  When that hook rejects, the read is rejected, but the entry
    stays: over a cache that echoes, a [get] of the key still resolves with
    the copy. *)
Theorem received_calls_in_order {T S : Type} `{Cache S}
    (m : Model T) (conditions target : value) (wrapper : value → bool → bool → T)
    (o : QueryOptions) (w w1 : MWorld S) (s : S) (h' : Heap) (cacheDoc : value)
    (d : CacheDirector) (rd : Hook T) :
  EchoCache S →
  ModelHandlers.received_hook m target w = (w1, Resolved ()) →
  cache w = Some s →
  opt_cache o ≠ Some false →
  opt_fields o = None →
  Lodash.cloneDeep (heap w1) target = Some (h', cacheDoc) →
  cacheDirector m = Some d →
  valid d h' cacheDoc = true →
  ready (hooks m) = Some rd →
  is_Instance m (wrapper target false false) = true →
  let r := ModelHandlers.documentReceived m conditions target wrapper o w in
  calls r.1
  = calls w1 ++ [CallModelCacheSet cacheDoc;
                 CallCacheSet (buildKey d h' cacheDoc) cacheDoc;
                 CallWrapper target false false; CallReady]
  ∧ r.2 = match (rd h' (wrapper target false false)).2 with
          | Resolved _ => Resolved (wrapper target false false)
          | Rejected e => Rejected e
          end
  ∧ ∃ s', cache r.1 = Some s'
          ∧ (cache_get (buildKey d h' cacheDoc) s').2 = Resolved cacheDoc.
Proof.
  intros Hecho Hhook Hs Hopt Hfields Hclone Hd Hvalid Hready Hinst r. subst r.
  pose proof (received_hook_quiet m target w) as (cs0 & _ & _ & _ & _ & Hk0).
  rewrite Hhook in Hk0. simpl in Hk0. rewrite Hs in Hk0.
  rewrite (documentReceived_after_hook _ _ _ _ _ _ _ Hhook).
  assert (default true (opt_cache o) = true) as Hdef.
  { destruct (opt_cache o) as [[]|]; done. }
  unfold ModelHandlers.received_cache, ModelHandlers.defaults, ModelHandlers.truthy.
  simpl. rewrite Hfields, Hdef, Hk0, bool_decide_true by done.
  simpl. rewrite Hclone.
  rewrite (modelcache_set_valid m (with_heap h' w1) d cacheDoc s) by done.
  simpl. rewrite set_echo.
  unfold ModelHandlers.received_wrap, run_hook. simpl.
  rewrite Hready, Hinst.
  destruct (rd h' (wrapper target false false)) as [h2 r2]. simpl.
  split; [by rewrite <- !app_assoc|]. split; [done|].
  eexists. split; [done|]. apply get_set.
Qed.

Lemma received_calls_in_order_witness :
  let rd : Hook (value * bool * bool) := λ h _, (h, Rejected "ready failed") in
  let m : Model (value * bool * bool) :=
    {| hooks := {| creating := None; retrieved := None; ready := Some rd;
                   saving := None |};
       cacheDirector := Some id_director;
       validate := λ _ _, mkValidation false "";
       is_Instance := λ _, true |} in
  let wrapper := λ (d : value) (isNew isPartial : bool), (d, isNew, isPartial) in
  let r := ModelHandlers.documentReceived m VNull (VRef 0) wrapper
             (mkQueryOptions None None None) one_document in
  calls r.1 = [CallModelCacheSet (VRef 2); CallCacheSet "7" (VRef 2);
               CallWrapper (VRef 0) false false; CallReady]
  ∧ r.2 = Rejected "ready failed"
  ∧ ∃ s', cache r.1 = Some s' ∧ (cache_get "7" s').2 = Resolved (VRef 2).
Proof.
  intros rd m wrapper r.
  exact (received_calls_in_order m VNull (VRef 0) wrapper
           (mkQueryOptions None None None) one_document one_document ∅
           (heap one_document ++ [[("_id", VNum 7); ("tags", VRef 3)]; [("0", VStr "a")]])
           (VRef 2) id_director rd MemoryCache_echo
           eq_refl eq_refl ltac:(discriminate) eq_refl eq_refl eq_refl eq_refl
           eq_refl eq_refl).
Defined.

(** ** Saving and creating, further *)

(** X14.  [savingDocument] reads the [saving] hook and no other: the
    [creating] and [retrieved] hooks of the model make no difference to it.
    Without a [saving] hook it changes nothing and resolves with the
    instance.  With one, the hook is called once, on the memory as it is, and
    the promise settles as the hook does: a resolution is always a resolution
    with the instance that was passed in, a rejection carries the error of
    the hook.  The cache is not touched. *)
Theorem saving_settles_as_hook {T S : Type} `{Cache S}
    (m : Model T) (instance : T) (changes : value) (w : MWorld S) :
  (∀ cr rt,
     ModelHandlers.savingDocument (with_hooks cr rt m) instance changes w
     = ModelHandlers.savingDocument m instance changes w)
  ∧ (saving (hooks m) = None →
     ModelHandlers.savingDocument m instance changes w = (w, Resolved instance))
  ∧ (∀ hk, saving (hooks m) = Some hk →
       ModelHandlers.savingDocument m instance changes w
       = ({| heap := (hk (heap w) (instance, changes)).1; cache := cache w;
             calls := calls w ++ [CallSaving] |},
          match (hk (heap w) (instance, changes)).2 with
          | Resolved _ => Resolved instance
          | Rejected e => Rejected e
          end))
  ∧ cache (ModelHandlers.savingDocument m instance changes w).1 = cache w
  ∧ (∀ x, (ModelHandlers.savingDocument m instance changes w).2 = Resolved x →
          x = instance).
Proof.
  unfold ModelHandlers.savingDocument, ModelHandlers.then_, ModelHandlers.resolve,
    run_hook.
  split; [done|].
  destruct (saving (hooks m)) as [hk|]; simpl.
  - split; [done|]. split.
    + intros ? [= <-]. by destruct (hk (heap w) (instance, changes)) as [h [[]|e]].
    + destruct (hk (heap w) (instance, changes)) as [h [[]|e]]; simpl;
        (split; [done|]); by intros x [= <-].
  - split; [done|]. split; [done|]. split; [done|]. by intros x [= <-].
Qed.

Lemma saving_settles_as_hook_witness :
  let veto : Hook (nat * value) := λ h _, (h, Rejected "read only") in
  let m : Model nat :=
    {| hooks := {| creating := None; retrieved := None; ready := None;
                   saving := Some veto |};
       cacheDirector := Some id_director;
       validate := λ _ _, mkValidation false "";
       is_Instance := λ _, true |} in
  let m0 : Model nat :=
    {| hooks := {| creating := None; retrieved := None; ready := None;
                   saving := None |};
       cacheDirector := Some id_director;
       validate := λ _ _, mkValidation false "";
       is_Instance := λ _, true |} in
  ModelHandlers.savingDocument m0 5 (VRef 1) one_document
  = (one_document, Resolved 5)
  ∧ ModelHandlers.savingDocument m 5 (VRef 1) one_document
    = ({| heap := heap one_document; cache := Some ∅; calls := [CallSaving] |},
       Rejected "read only").
Proof.
  intros veto m m0. split.
  - exact (proj1 (proj2 (saving_settles_as_hook m0 5 (VRef 1) one_document)) eq_refl).
  - exact (proj1 (proj2 (proj2 (saving_settles_as_hook m 5 (VRef 1) one_document)))
             veto eq_refl).
Defined.

Section Aggregate.
Context (verdict : value → Validation).



End Aggregate.

Section AllSchedules.
Context {T S : Type} `{Cache S}.
Context (m : Model T) (P : MWorld S → Prop) (verdict : value → Validation)
  (docs : list value).
Hypothesis P_kept : ∀ (w : MWorld S) b w' b',
P w → ModelHandlers.creating_step m w b = Some (w', b') → P w'.
Hypothesis first_resolves : ∀ (w : MWorld S) d,
P w → d ∈ docs →
∃ w', ModelHandlers.creating_step m w (ModelHandlers.BStart d)
    = Some (w', ModelHandlers.BHooked d).
Hypothesis verdict_stable : ∀ (w : MWorld S) d,
P w → d ∈ docs → validate m (heap w) d = verdict d.






End AllSchedules.



(** The rejection that comes first in time need not be the first by
    position.  With a [creating] hook whose promise for the first document
    resolves after the second document has been validated, the batch is
    rejected with the error of the second document; when the callbacks run
    in turn, with that of the first. *)
Example creating_later_document_fails_first :
  let m : Model unit :=
    {| hooks := {| creating := Some (λ h _, (h, Resolved ()));
                   retrieved := Some (λ h _, (h, Resolved ()));
                   ready := None; saving := None |};
       cacheDirector := None;
       validate := λ h d, match prop_of h d "name" with
                          | VStr _ => mkValidation false ""
                          | VNum _ => mkValidation true "name: expected a string"
                          | _ => mkValidation true "name: required"
                          end;
       is_Instance := λ _, true |} in
  let w : MWorld unit :=
    {| heap := [[("name", VNum 3)]; []]; cache := Some (); calls := [] |} in
  let late := ModelHandlers.all_run m [0; 1; 1; 0]
                ((w, None), ModelHandlers.BStart <$> [VRef 0; VRef 1]) in
  calls late.1.1 = [CallCreating (VRef 0); CallCreating (VRef 1);
                    CallValidate (VRef 1); CallValidate (VRef 0)]
  ∧ ModelHandlers.all_outcome late.1.2 late.2 = Some (Rejected "name: required")
  ∧ (ModelHandlers.creatingDocuments m [VRef 0; VRef 1] w).2
    = Rejected "name: expected a string".
Proof. done. Qed.

(** ** Trying again *)

(** X16.  A failed attempt can be retried.  On an idle manager whose hooks
    succeed, a call that the driver rejects is rejected with the driver's
    error and leaves the manager idle; the next call goes to the driver
    again, and when the driver answers this time, it resolves with the
    manager and the connection is there.  The driver has been called twice,
    and nothing was released in between: there was nothing to release. *)
Theorem retry_after_failure (hk : Hooks) (drv : Driver) (w : World)
    (target : string) (e : Err) (db : Db) :
  idle (core w) →
  url (core w) = Resolved target →
  (∀ tr d, resolves (onConnecting hk tr d) = true) →
  (∀ tr, resolves (onConnected hk tr) = true) →
  let r1 := connect hk drv (Rejected e) w in
  let r2 := connect hk drv (Resolved db) r1.1 in
  r1.2 = Some (Rejected e)
  ∧ trace r1.1 = trace w ++ [EvConnect target (length (promises w)); EvConnection None]
  ∧ idle (core r1.1)
  ∧ r2.2 = Some (Resolved (this (core w)))
  ∧ is_resolved (connection r2.1) = true
  ∧ issued r2.1 = 2 + issued w.
Proof.
  destruct w as [[self u cfg conn cp] ps tr]. intros [Hc Hp] Hurl Hing Hed.
  simpl in *. subst.
  unfold connect, connect_all. cbn [replicate sweep].
  unfold connect_step at 2. simpl. rewrite Hurl.
  cbn [sweeps sweep fst snd settle_all core promises trace connect_step
       mongoConnectAsyc set_connectPromise emit _connection _connectPromise].
  rewrite settled_lookup_new. simpl.
  split; [done|]. split; [by rewrite <- !app_assoc|]. split; [done|].
  rewrite Hurl.
  cbn [sweeps sweep fst snd settle_all core promises trace connect_step
       mongoConnectAsyc set_connectPromise emit _connection _connectPromise].
  rewrite settled_lookup_new. simpl.
  match goal with |- context [onConnecting hk ?t db] =>
    specialize (Hing t db); destruct (onConnecting hk t db) as [[db'|]|];
      [|done|done] end.
  simpl.
  match goal with |- context [onConnected hk ?t] =>
    specialize (Hed t); destruct (onConnected hk t) as [[]|]; [|done|done] end.
  simpl. split; [done|]. split; [done|]. count_issued.
Qed.

Lemma retry_after_failure_witness :
  let drv := mkDriver (λ _, Returned (Resolved ())) in
  let w := fresh_world {| this := 1; _url := Some "mongodb://h"; _config := None;
                          _connection := None; _connectPromise := None |} in
  let r1 := connect default_hooks drv (Rejected "ECONNREFUSED") w in
  let r2 := connect default_hooks drv (Resolved 4) r1.1 in
  r1.2 = Some (Rejected "ECONNREFUSED")
  ∧ trace r1.1 = [EvConnect "mongodb://h" 0; EvConnection None]
  ∧ idle (core r1.1)
  ∧ r2.2 = Some (Resolved 1)
  ∧ is_resolved (connection r2.1) = true
  ∧ issued r2.1 = 2.
Proof.
  intros drv w.
  exact (retry_after_failure default_hooks drv w "mongodb://h" "ECONNREFUSED" 4
           (conj eq_refl eq_refl) eq_refl (λ _ _, eq_refl) (λ _, eq_refl)).
Defined.
